(** * Weighted union-find for difference constraints (Graviton/q1.cpp)

    A shallow embedding of the [DSU] structure of [q1.cpp] (a disjoint-set
    forest whose nodes carry the potential difference to their parent), of
    the per-test-case driver [solve] and of [main], followed by the
    properties of the structure and of the verdict.

    Conventions of the embedding.
    - [vector<int> parent] is a [list nat], [vector<ll> diff] a [list Z];
      subscripts are list lookups and in-place stores are list inserts.
    - A computation returns [res A]: [Ok a], or [Err e] where the C++
      program has no defined result: a subscript outside the vector
      ([OutOfBounds]), a signed overflow ([Overflow]), a recursion that does
      not come back ([OutOfFuel]), a failed allocation ([BadAlloc]), an
      input stream that does not hold the expected integers ([BadInput]).
    - [long long] arithmetic is exact arithmetic on [Z] followed by a range
      check against [-2^63, 2^63 - 1]; [int] values are checked against
      [-2^31, 2^31 - 1]. *)

From Stdlib Require Import ZArith Lia String.
From stdpp Require Import base numbers option list.

Local Open Scope Z_scope.

(* ------------------------------------------------------------------ *)
(** ** Results and undefined behaviour *)

Inductive err : Type :=
  | OutOfBounds
  | Overflow
  | OutOfFuel
  | BadAlloc
  | BadInput.

Inductive res (A : Type) : Type :=
  | Ok (a : A)
  | Err (e : err).

Arguments Ok {A} a.
Arguments Err {A} e.

#[export] Instance res_ret : MRet res := fun A a => Ok a.
#[export] Instance res_bind : MBind res := fun A B f m =>
  match m with
  | Ok a => f a
  | Err e => Err e
  end.

(* ------------------------------------------------------------------ *)
(** ** Machine integers *)

Definition int_min : Z := - 2 ^ 31.
Definition int_max : Z := 2 ^ 31 - 1.
Definition ll_min : Z := - 2 ^ 63.
Definition ll_max : Z := 2 ^ 63 - 1.

Definition is_int (z : Z) : Prop := int_min <= z <= int_max.
Definition is_ll (z : Z) : Prop := ll_min <= z <= ll_max.

Definition int_check (z : Z) : res Z :=
  if (int_min <=? z) && (z <=? int_max) then Ok z else Err Overflow.

Definition ll_check (z : Z) : res Z :=
  if (ll_min <=? z) && (z <=? ll_max) then Ok z else Err Overflow.

Definition int_add (a b : Z) : res Z := int_check (a + b).
Definition ll_add (a b : Z) : res Z := ll_check (a + b).
Definition ll_sub (a b : Z) : res Z := ll_check (a - b).

(* ------------------------------------------------------------------ *)
(** ** Vectors *)

(** [v[i]] as an rvalue. *)
Definition vget {A : Type} (v : list A) (i : nat) : res A :=
  match v !! i with
  | Some a => Ok a
  | None => Err OutOfBounds
  end.

(** [v[i] = a]. *)
Definition vset {A : Type} (v : list A) (i : nat) (a : A) : res (list A) :=
  if decide (i < length v)%nat then Ok (<[i := a]> v) else Err OutOfBounds.

(* ------------------------------------------------------------------ *)
(** ** The structure *)

Record DSU : Type := mkDSU {
  parent : list nat;   (* parent[i]: the parent of node i *)
  diff : list Z        (* diff[i]: x_i - x_{parent[i]} *)
}.

Definition set_parent (s : DSU) (l : list nat) : DSU :=
  {| parent := l; diff := diff s |}.
Definition set_diff (s : DSU) (l : list Z) : DSU :=
  {| parent := parent s; diff := l |}.

(** [DSU(int n)]: both vectors get [n + 1] slots, [parent] is filled with
    [0, 1, ..., n] and [diff] with zeros. A negative size does not convert
    to a size the vector can have. *)
Definition DSU_new (n : Z) : res DSU :=
  sz ← int_add n 1;
  if sz <? 0 then Err BadAlloc
  else Ok {| parent := seq 0 (Z.to_nat sz); diff := replicate (Z.to_nat sz) 0 |}.

(** [find], by recursion on a bound for the depth of the recursion. *)
Fixpoint find_fuel (fuel : nat) (s : DSU) (i : nat) : res (nat * DSU) :=
  match fuel with
  | O => Err OutOfFuel
  | S fuel' =>
      p ← vget (parent s) i;
      if decide (p = i) then Ok (i, s)
      else
        '(root, s1) ← find_fuel fuel' s p;
        (* diff[i] += diff[parent[i]] *)
        p1 ← vget (parent s1) i;
        dp ← vget (diff s1) p1;
        di ← vget (diff s1) i;
        d ← ll_add di dp;
        ds ← vset (diff s1) i d;
        let s2 := set_diff s1 ds in
        (* parent[i] = root *)
        ps ← vset (parent s2) i root;
        Ok (root, set_parent s2 ps)
  end.

(** A chain of parent pointers visits no node twice, so it is no longer
    than the vector. *)
Definition find (s : DSU) (i : nat) : res (nat * DSU) :=
  find_fuel (length (parent s)) s i.

(** [unite(i, j, c)]: record [x_i - x_j = c]. *)
Definition unite (s : DSU) (i j : nat) (c : Z) : res (bool * DSU) :=
  '(root_i, s1) ← find s i;
  '(root_j, s2) ← find s1 j;
  if decide (root_i ≠ root_j) then
    ps ← vset (parent s2) root_i root_j;
    let s3 := set_parent s2 ps in
    (* diff[root_i] = diff[j] - diff[i] + c *)
    dj ← vget (diff s3) j;
    di ← vget (diff s3) i;
    t ← ll_sub dj di;
    d ← ll_add t c;
    ds ← vset (diff s3) root_i d;
    Ok (true, set_diff s3 ds)
  else
    di ← vget (diff s2) i;
    dj ← vget (diff s2) j;
    t ← ll_sub di dj;
    if decide (t ≠ c) then Ok (false, s2) else Ok (true, s2).

(* ------------------------------------------------------------------ *)
(** ** The driver *)

(** The standard input is the list of its integer tokens. *)
Definition stream : Type := list Z.

(** [cin >> x] for an [int x]. *)
Definition read_int (inp : stream) : res (Z * stream) :=
  match inp with
  | [] => Err BadInput
  | z :: rest => if (int_min <=? z) && (z <=? int_max) then Ok (z, rest) else Err BadInput
  end.

(** An [int] used as a subscript. *)
Definition index (z : Z) : res nat :=
  if z <? 0 then Err OutOfBounds else Ok (Z.to_nat z).

Record loop_state : Type := mkLoop {
  ls_dsu : DSU;
  ls_consistent : bool;
  ls_input : stream;
  ls_calls : nat       (* ghost: the number of [unite] calls made so far *)
}.

(** One iteration of the loop of [solve]. *)
Definition solve_step (st : loop_state) : res loop_state :=
  '(i, inp1) ← read_int (ls_input st);
  '(j, inp2) ← read_int inp1;
  '(c, inp3) ← read_int inp2;
  if ls_consistent st then
    i' ← index i;
    j' ← index j;
    '(ok, d) ← unite (ls_dsu st) i' j' c;
    Ok {| ls_dsu := d; ls_consistent := ok; ls_input := inp3;
          ls_calls := S (ls_calls st) |}
  else
    Ok {| ls_dsu := ls_dsu st; ls_consistent := false; ls_input := inp3;
          ls_calls := ls_calls st |}.

(** [for (int k = 0; k < m; ++k)], with [m - k] iterations to go. *)
Fixpoint solve_loop (todo : nat) (st : loop_state) : res loop_state :=
  match todo with
  | O => Ok st
  | S todo' => st' ← solve_step st; solve_loop todo' st'
  end.

Definition verdict (consistent : bool) : string :=
  if consistent then "YES"%string else "NO"%string.

(** [solve], up to the end of the loop. *)
Definition solve_run (inp : stream) : res loop_state :=
  '(n, inp1) ← read_int inp;
  '(m, inp2) ← read_int inp1;
  dsu ← DSU_new n;
  solve_loop (Z.to_nat m)
    {| ls_dsu := dsu; ls_consistent := true; ls_input := inp2; ls_calls := 0 |}.

(** [solve]: the line printed and the rest of the input. *)
Definition solve (inp : stream) : res (string * stream) :=
  st ← solve_run inp;
  Ok (verdict (ls_consistent st), ls_input st).

(** [while (t--) solve();] for a non-negative [t]. *)
Fixpoint main_loop (t : nat) (inp : stream) (out : list string) : res (list string) :=
  match t with
  | O => Ok out
  | S t' => '(line, inp') ← solve inp; main_loop t' inp' (out ++ [line])
  end.

(** [main]: the lines printed. A negative [t] counts down until the
    decrement overflows. *)
Definition main (inp : stream) : res (list string) :=
  '(t, inp1) ← read_int inp;
  if t <? 0 then Err Overflow else main_loop (Z.to_nat t) inp1 [].

(* ------------------------------------------------------------------ *)
(** ** Specification vocabulary *)

(** A constraint [(i, j, c)] reads [x_i - x_j = c]. *)
Definition constraint : Type := nat * nat * Z.

Definition holds (y : nat → Z) (k : constraint) : Prop :=
  y k.1.1 - y k.1.2 = k.2.

(** An integer assignment satisfying every constraint of a list. *)
Definition sat (y : nat → Z) (cs : list constraint) : Prop :=
  ∀ k, k ∈ cs → holds y k.

Definition satisfiable (cs : list constraint) : Prop := ∃ y, sat y cs.

Definition is_root (s : DSU) (r : nat) : Prop := parent s !! r = Some r.

(** Following parent pointers from [i] to the fixed point, without
    changing anything: the root reached and the sum of the offsets of the
    nodes left behind on the way. *)
Fixpoint walk (fuel : nat) (s : DSU) (i : nat) : option (nat * Z) :=
  match fuel with
  | O => None
  | S fuel' =>
      p ← parent s !! i;
      if decide (p = i) then Some (i, 0)
      else
        d ← diff s !! i;
        '(r, t) ← walk fuel' s p;
        Some (r, d + t)
  end.

Definition root_sum (s : DSU) (i : nat) : option (nat * Z) :=
  walk (length (parent s)) s i.

Definition root_of (s : DSU) (i : nat) : option nat := fst <$> root_sum s i.

(** [k] is met when going up from [i] (the ends included). *)
Inductive on_path (s : DSU) : nat → nat → Prop :=
  | on_path_here i : on_path s i i
  | on_path_up i p k :
      parent s !! i = Some p → p ≠ i → on_path s p k → on_path s i k.

(** [k] steps up from [i]; a root stays where it is. *)
Fixpoint ancestor (s : DSU) (k : nat) (i : nat) : option nat :=
  match k with
  | O => Some i
  | S k' => p ← parent s !! i; ancestor s k' p
  end.

(** The constraints of [cs] that lie in the component whose root is [r]. *)
Definition sat_in (s : DSU) (r : nat) (y : nat → Z) (cs : list constraint) : Prop :=
  ∀ k, k ∈ cs → root_of s k.1.1 = Some r → holds y k.

(** The states of a structure of [n] elements: what the constructor
    builds and what [find] and [unite] make of it, called with subscripts
    of the vectors and an [int] offset. The list is the constraints that
    [unite] has accepted, the latest first. *)
Inductive reach (n : Z) : DSU → list constraint → Prop :=
  | reach_new s :
      DSU_new n = Ok s → reach n s []
  | reach_find s cs i r s' :
      reach n s cs → 0 <= Z.of_nat i <= n →
      find s i = Ok (r, s') → reach n s' cs
  | reach_unite s cs i j c b s' :
      reach n s cs → 0 <= Z.of_nat i <= n → 0 <= Z.of_nat j <= n → is_int c →
      unite s i j c = Ok (b, s') →
      reach n s' (if b then (i, j, c) :: cs else cs).

(* ------------------------------------------------------------------ *)
(** ** The invariant of the forest *)

(** [sumn n t] is [t 0 + ... + t (n - 1)]. *)
Fixpoint sumn (n : nat) (t : nat → nat) : nat :=
  match n with
  | O => 0%nat
  | S n' => (sumn n' t + t n')%nat
  end.

(** What the two vectors stand for. [rep] sends a node to the root of its
    tree; [pot] is a solution of the accepted constraints; [ht] grows
    along every parent pointer; [cr r] bounds, for the tree rooted at [r],
    its height and (in units of [2^31]) the spread of [pot] over it;
    [wt r] bounds the same spread by the magnitudes of the constraints
    that built the tree. *)
Record ghost : Type := mkGhost {
  rep : nat → nat;
  pot : nat → Z;
  ht : nat → nat;
  cr : nat → nat;
  wt : nat → nat
}.

(** A quantity attached to the roots, to be summed over the vector. *)
Definition root_weight (s : DSU) (f : nat → nat) (k : nat) : nat :=
  if decide (parent s !! k = Some k) then f k else 0%nat.

(** The sum of the magnitudes of a list of constraints. *)
Definition total_magnitude (cs : list constraint) : Z :=
  foldr (fun k acc => Z.abs k.2 + acc) 0 cs.

Record Inv (g : ghost) (cs : list constraint) (s : DSU) : Prop := mkInv {
  I_len : length (diff s) = length (parent s);
  I_size : Z.of_nat (length (parent s)) <= int_max;
  I_par : ∀ i, (i < length (parent s))%nat →
    ∃ p, parent s !! i = Some p ∧ (p < length (parent s))%nat ∧
         rep g p = rep g i ∧ (p ≠ i → (ht g i < ht g p)%nat) ∧
         diff s !! i = Some (pot g i - pot g p);
  I_rep : ∀ i, (i < length (parent s))%nat →
    (rep g i < length (parent s))%nat ∧ is_root s (rep g i) ∧
    (rep g i ≠ i → (ht g i < ht g (rep g i))%nat) ∧
    (ht g i ≤ cr g (rep g i))%nat;
  I_root : ∀ r, is_root s r → rep g r = r;
  I_span : ∀ i j, (i < length (parent s))%nat → (j < length (parent s))%nat →
    rep g i = rep g j →
    Z.abs (pot g i - pot g j) <= 2 ^ 31 * Z.of_nat (cr g (rep g i));
  (* every tree pays [cr r + 1] out of one unit per node *)
  I_credit : (sumn (length (parent s)) (root_weight s (fun k => S (cr g k)))
              ≤ length (parent s))%nat;
  I_wspan : ∀ i j, (i < length (parent s))%nat → (j < length (parent s))%nat →
    rep g i = rep g j →
    Z.abs (pot g i - pot g j) <= Z.of_nat (wt g (rep g i));
  I_wsum : Z.of_nat (sumn (length (parent s)) (root_weight s (wt g)))
           <= total_magnitude cs;
  I_cs : ∀ a b d, (a, b, d) ∈ cs →
    (a < length (parent s))%nat ∧ (b < length (parent s))%nat ∧
    rep g a = rep g b ∧ pot g a - pot g b = d;
  I_compl : ∀ y r,
    (∀ a b d, (a, b, d) ∈ cs → rep g a = r → y a - y b = d) →
    ∀ i, (i < length (parent s))%nat → rep g i = r →
    y i - y r = pot g i - pot g r
}.

(** The ghost state of a fresh structure. *)
Definition ghost0 : ghost :=
  {| rep := fun k => k; pot := fun _ => 0; ht := fun _ => 0%nat;
     cr := fun _ => 0%nat; wt := fun _ => 0%nat |}.

(** The ghost state after attaching the root [ri] under the root [rj] on
    account of [x_i - x_j = c]. *)
Definition ghost_link (g : ghost) (ri rj i j : nat) (c : Z) : ghost :=
  {| rep := fun k => if decide (rep g k = ri) then rj else rep g k;
     pot := fun k => if decide (rep g k = ri)
                     then pot g k + (c - (pot g i - pot g j)) else pot g k;
     ht := fun k => if decide (k = rj) then Nat.max (ht g rj) (S (ht g ri)) else ht g k;
     cr := fun k => if decide (k = rj) then S (cr g ri + cr g rj) else cr g k;
     wt := fun k => if decide (k = rj)
                    then (wt g ri + wt g rj + Z.abs_nat c)%nat else wt g k |}.

(** The state after [parent[ri] = rj] and the store to [diff[ri]], for
    the roots [ri] of [i] and [rj] of [j]. *)
Definition link_state (g : ghost) (s : DSU) (i j : nat) (c : Z) : DSU :=
  {| parent := <[rep g i := rep g j]> (parent s);
     diff := <[rep g i := pot g j - pot g (rep g j) - (pot g i - pot g (rep g i)) + c]> (diff s) |}.

(** [k + 1] calls of [find] on the same element in a row; the result of
    the last one. *)
Fixpoint find_again (k : nat) (s : DSU) (i : nat) : res (nat * DSU) :=
  match k with
  | O => find s i
  | S k' => '(_, s') ← find s i; find_again k' s' i
  end.

(** A test case as it stands in the input: [n], then the constraints. *)
Record test_case : Type := mkCase {
  tc_n : Z;
  tc_constraints : list (Z * Z * Z)
}.

Definition encode_constraints (cs : list (Z * Z * Z)) : stream :=
  flat_map (fun k => [k.1.1; k.1.2; k.2]) cs.

Definition encode_case (tc : test_case) : stream :=
  tc_n tc :: Z.of_nat (length (tc_constraints tc)) :: encode_constraints (tc_constraints tc).

(** What the input format promises of a test case. *)
Definition well_formed (tc : test_case) : Prop :=
  0 <= tc_n tc ∧ tc_n tc + 1 <= int_max ∧
  Z.of_nat (length (tc_constraints tc)) <= int_max ∧
  ∀ k, k ∈ tc_constraints tc →
    1 <= k.1.1 <= tc_n tc ∧ 1 <= k.1.2 <= tc_n tc ∧ is_int k.2.

(** The constraints [x_i - x_j = c] of a test case have an integer
    solution. *)
Definition consistent (cs : list (Z * Z * Z)) : Prop :=
  ∃ x : Z → Z, ∀ k, k ∈ cs → x k.1.1 - x k.1.2 = k.2.

(** The elements as subscripts. *)
Definition to_constraint (k : Z * Z * Z) : constraint :=
  (Z.to_nat k.1.1, Z.to_nat k.1.2, k.2).

(** Two states of a structure of three elements: after [unite(1, 2, 5)],
    and after [unite(2, 3, 3)] on top of it (a chain [1 → 2 → 3]). *)
Definition ex_pair : DSU := {| parent := [0; 2; 2; 3]%nat; diff := [0; 5; 0; 0] |}.
Definition ex_chain : DSU := {| parent := [0; 2; 3; 3]%nat; diff := [0; 5; 3; 0] |}.
(** The chain after [find(1)]. *)
Definition ex_flat : DSU := {| parent := [0; 3; 3; 3]%nat; diff := [0; 8; 3; 0] |}.

(** The line that belongs to a test case. *)
Definition right_line (line : string) (tc : test_case) : Prop :=
  (line = "YES"%string ∧ consistent (tc_constraints tc)) ∨
  (line = "NO"%string ∧ ¬ consistent (tc_constraints tc)).

(** The constraints of scenarios A and B of the specification. *)
Definition case_A : test_case := {| tc_n := 3; tc_constraints := [(1, 2, 5); (2, 3, 3); (1, 3, 8)] |}.
Definition case_B : test_case := {| tc_n := 3; tc_constraints := [(1, 2, 5); (2, 3, 3); (1, 3, 9)] |}.

(** The number of trees of the forest: the nodes that are their own
    parent. *)
Definition count_roots (s : DSU) : nat :=
  sumn (length (parent s)) (root_weight s (fun _ => 1%nat)).

(** The offset of an element to the root of its tree, read off the
    vectors without changing them. *)
Definition offset_of (s : DSU) (i : nat) : Z :=
  match root_sum s i with
  | Some (_, d) => d
  | None => 0
  end.

(* ------------------------------------------------------------------ *)
(** ** Scenarios of the specification, run on the model *)

Example scenario_A : main [1; 3; 3; 1; 2; 5; 2; 3; 3; 1; 3; 8] = Ok ["YES"%string].
Proof. vm_compute. reflexivity. Qed.

Example scenario_B : main [1; 3; 3; 1; 2; 5; 2; 3; 3; 1; 3; 9] = Ok ["NO"%string].
Proof. vm_compute. reflexivity. Qed.

Example scenario_C : main [1; 4; 1; 1; 2; 0] = Ok ["YES"%string].
Proof. vm_compute. reflexivity. Qed.

(* ------------------------------------------------------------------ *)
(** ** Running a computation forward *)

Lemma bind_Ok {A B} (a : A) (f : A → res B) : (Ok a ≫= f) = f a.
Proof. reflexivity. Qed.

Lemma bind_Ok_inv {A B} (m : res A) (f : A → res B) (b : B) :
  m ≫= f = Ok b → ∃ a, m = Ok a ∧ f a = Ok b.
Proof. destruct m as [a|e]; [eauto | discriminate]. Qed.

Lemma diff_set_parent s l : diff (set_parent s l) = diff s.
Proof. reflexivity. Qed.

Lemma vget_Ok {A} (v : list A) i a : v !! i = Some a → vget v i = Ok a.
Proof. unfold vget. by intros ->. Qed.

Lemma vset_Ok {A} (v : list A) i a :
  (i < length v)%nat → vset v i a = Ok (<[i := a]> v).
Proof. unfold vset. intros. by rewrite decide_True. Qed.

Lemma ll_check_Ok z : is_ll z → ll_check z = Ok z.
Proof.
  unfold is_ll, ll_check. intros [H1 H2].
  apply Z.leb_le in H1, H2. by rewrite H1, H2.
Qed.

Lemma int_check_Ok z : is_int z → int_check z = Ok z.
Proof.
  unfold is_int, int_check. intros [H1 H2].
  apply Z.leb_le in H1, H2. by rewrite H1, H2.
Qed.

Lemma int_check_Ok_inv z w : int_check z = Ok w → is_int z ∧ w = z.
Proof.
  unfold is_int, int_check.
  destruct (int_min <=? z) eqn:H1; destruct (z <=? int_max) eqn:H2; simpl; try discriminate.
  intros [= <-]. apply Z.leb_le in H1, H2. done.
Qed.

(* ------------------------------------------------------------------ *)
(** ** Sums over the first [n] naturals *)

Lemma sumn_ext n t t' :
  (∀ k, (k < n)%nat → t k = t' k) → sumn n t = sumn n t'.
Proof.
  induction n as [|n IH]; intros H; simpl; [done|].
  rewrite IH, H by (intros; try apply H; lia). done.
Qed.

(** Two summands that differ at one point only. *)
Lemma sumn_update n t t' k :
  (k < n)%nat → (∀ j, (j < n)%nat → j ≠ k → t' j = t j) →
  (sumn n t' + t k = sumn n t + t' k)%nat.
Proof.
  induction n as [|n IH]; intros Hk H; [lia|]. simpl.
  destruct (decide (k = n)) as [->|Hne].
  - rewrite (sumn_ext n t' t) by (intros; apply H; lia). lia.
  - rewrite (H n) by lia.
    assert (sumn n t' + t k = sumn n t + t' k)%nat by (apply IH; [lia | intros; apply H; lia]).
    lia.
Qed.

Lemma sumn_ge n t k : (k < n)%nat → (t k ≤ sumn n t)%nat.
Proof.
  induction n as [|n IH]; intros Hk; [lia|]. simpl.
  destruct (decide (k = n)) as [->|Hne]; [lia|].
  assert (t k ≤ sumn n t)%nat by (apply IH; lia). lia.
Qed.

(* ------------------------------------------------------------------ *)
(** ** Consequences of the invariant *)

Section Invariant.
Context {g : ghost} {cs : list constraint} {s : DSU}.
Hypothesis HI : Inv g cs s.

Local Abbreviation N := (length (parent s)).

Lemma Inv_rep_root i : (i < N)%nat → is_root s (rep g i).
Proof. intros Hi. by destruct (I_rep _ _ _ HI i Hi) as (_ & ? & _). Qed.

Lemma Inv_rep_lt i : (i < N)%nat → (rep g i < N)%nat.
Proof. intros Hi. by destruct (I_rep _ _ _ HI i Hi) as (? & _). Qed.

Lemma Inv_rep_idem i : (i < N)%nat → rep g (rep g i) = rep g i.
Proof. intros Hi. apply (I_root _ _ _ HI). by apply Inv_rep_root. Qed.

Lemma Inv_ht_le_rep i : (i < N)%nat → (ht g i ≤ ht g (rep g i))%nat.
Proof.
  intros Hi. destruct (I_rep _ _ _ HI i Hi) as (_ & _ & H & _).
  destruct (decide (rep g i = i)) as [->|Hne]; [done|]. specialize (H Hne). lia.
Qed.

Lemma Inv_parent i p : parent s !! i = Some p →
  (p < N)%nat ∧ rep g p = rep g i ∧ (p ≠ i → (ht g i < ht g p)%nat) ∧
  diff s !! i = Some (pot g i - pot g p).
Proof.
  intros Hp. assert (i < N)%nat as Hi by by apply lookup_lt_Some in Hp.
  destruct (I_par _ _ _ HI i Hi) as (p' & Hp' & H). by simplify_eq.
Qed.

Lemma root_weight_root f r : is_root s r → root_weight s f r = f r.
Proof. unfold root_weight, is_root. intros H. by rewrite decide_True. Qed.

(** The credit of a tree is below the number of nodes. *)
Lemma Inv_cr_lt i : (i < N)%nat → (cr g (rep g i) < N)%nat.
Proof.
  intros Hi. pose proof (Inv_rep_root i Hi) as Hr.
  pose proof (sumn_ge N (root_weight s (fun k => S (cr g k))) (rep g i)
                (Inv_rep_lt i Hi)) as H.
  rewrite root_weight_root in H by done.
  pose proof (I_credit _ _ _ HI). lia.
Qed.

Lemma Inv_fuel i : (i < N)%nat → (cr g (rep g i) < N + ht g i)%nat.
Proof. intros Hi. pose proof (Inv_cr_lt i Hi). lia. Qed.

(** Potential differences inside a tree stay far from the ends of the
    64-bit range. *)
Lemma Inv_span_bound i j : (i < N)%nat → (j < N)%nat → rep g i = rep g j →
  Z.abs (pot g i - pot g j) <= 2 ^ 31 * (2 ^ 31 - 2).
Proof.
  intros Hi Hj Hij. pose proof (I_span _ _ _ HI i j Hi Hj Hij) as H.
  pose proof (Inv_cr_lt i Hi). pose proof (I_size _ _ _ HI) as Hs.
  unfold int_max in Hs. nia.
Qed.

Lemma Inv_span_ll i j : (i < N)%nat → (j < N)%nat → rep g i = rep g j →
  is_ll (pot g i - pot g j).
Proof.
  intros Hi Hj Hij. pose proof (Inv_span_bound i j Hi Hj Hij).
  unfold is_ll, ll_min, ll_max. lia.
Qed.

Lemma on_path_Inv i k : on_path s i k →
  (i < N)%nat → (k < N)%nat ∧ rep g k = rep g i ∧ (ht g i ≤ ht g k)%nat ∧
  (k ≠ i → (ht g i < ht g k)%nat).
Proof.
  induction 1 as [i | i p k Hp Hne Hpath IH]; intros Hi; [by auto with lia|].
  destruct (Inv_parent i p Hp) as (Hlt & Hrep & Hht & _).
  destruct (IH Hlt) as (? & ? & ? & ?). specialize (Hht Hne).
  repeat split; [done | congruence | lia | lia].
Qed.

Lemma on_path_root r k : is_root s r → on_path s r k → k = r.
Proof.
  intros Hr Hp. inversion Hp as [| ? p ? Hpar Hne]; subst; [done|].
  unfold is_root in Hr. congruence.
Qed.

End Invariant.

(* ------------------------------------------------------------------ *)
(** ** [find] on a state that satisfies the invariant *)

(** Storing the root and the offset to the root at a node that is not a
    root keeps the invariant, with the same ghost state. *)
Lemma Inv_compress g cs s i :
  Inv g cs s → (i < length (parent s))%nat → ¬ is_root s i →
  Inv g cs {| parent := <[i := rep g i]> (parent s);
              diff := <[i := pot g i - pot g (rep g i)]> (diff s) |}.
Proof.
  intros HI Hi Hnr.
  assert (rep g i ≠ i) as Hri.
  { intros E. apply Hnr. rewrite <- E. by apply (Inv_rep_root HI). }
  assert (∀ r, r ≠ i → is_root s r ↔
            is_root {| parent := <[i := rep g i]> (parent s);
                       diff := <[i := pot g i - pot g (rep g i)]> (diff s) |} r) as Hroot.
  { intros r Hr. unfold is_root; simpl. by rewrite list_lookup_insert_ne. }
  assert (∀ f k, root_weight {| parent := <[i := rep g i]> (parent s);
                       diff := <[i := pot g i - pot g (rep g i)]> (diff s) |} f k
                 = root_weight s f k) as Hweight.
  { intros f k. unfold root_weight; simpl.
    destruct (decide (k = i)) as [->|Hne].
    - rewrite list_lookup_insert_eq by done.
      rewrite !decide_False; [done | done | congruence].
    - by rewrite list_lookup_insert_ne. }
  constructor; simpl; rewrite ?length_insert.
  - apply (I_len _ _ _ HI).
  - apply (I_size _ _ _ HI).
  - intros k Hk. destruct (decide (k = i)) as [->|Hne].
    + exists (rep g i). rewrite !list_lookup_insert_eq by (rewrite ?(I_len _ _ _ HI); done).
      destruct (I_rep _ _ _ HI i Hi) as (? & ? & ? & ?).
      repeat split; [done | by apply (Inv_rep_idem HI) | done].
    + rewrite !list_lookup_insert_ne by done. by apply (I_par _ _ _ HI).
  - intros k Hk. destruct (I_rep _ _ _ HI k Hk) as (? & Hr & ? & ?).
    repeat split; [done | | done | done].
    apply Hroot; [|done]. intros E. apply Hnr. by rewrite <- E.
  - intros r Hr. destruct (decide (r = i)) as [->|Hne].
    + unfold is_root in Hr; simpl in Hr.
      rewrite list_lookup_insert_eq in Hr by done. congruence.
    + apply (I_root _ _ _ HI). by apply Hroot.
  - apply (I_span _ _ _ HI).
  - rewrite (sumn_ext _ _ (root_weight s (fun k => S (cr g k))));
      [apply (I_credit _ _ _ HI) | by intros; apply Hweight].
  - apply (I_wspan _ _ _ HI).
  - rewrite (sumn_ext _ _ (root_weight s (wt g)));
      [apply (I_wsum _ _ _ HI) | by intros; apply Hweight].
  - apply (I_cs _ _ _ HI).
  - apply (I_compl _ _ _ HI).
Qed.

(** With fuel for the climb, [find] returns the root, keeps the invariant,
    points every node of the path to the root and leaves the others alone. *)
Lemma find_fuel_Inv g cs s :
  Inv g cs s → ∀ fuel i,
  (i < length (parent s))%nat → (cr g (rep g i) < fuel + ht g i)%nat →
  ∃ s', find_fuel fuel s i = Ok (rep g i, s') ∧ Inv g cs s' ∧
        length (parent s') = length (parent s) ∧
        (∀ k, on_path s i k → parent s' !! k = Some (rep g i)) ∧
        (∀ k, ¬ on_path s i k →
              parent s' !! k = parent s !! k ∧ diff s' !! k = diff s !! k) ∧
        (∀ k, parent s !! k = Some (rep g k) → parent s' !! k = Some (rep g k)) ∧
        (parent s !! i = Some (rep g i) → s' = s).
Proof.
  intros HI. induction fuel as [|fuel IH]; intros i Hi Hfuel.
  { destruct (I_rep _ _ _ HI i Hi) as (_ & _ & _ & ?). lia. }
  destruct (I_par _ _ _ HI i Hi) as (p & Hp & Hplt & Hprep & Hpht & Hdi).
  cbn [find_fuel]. rewrite (vget_Ok _ _ _ Hp), bind_Ok.
  destruct (decide (p = i)) as [->|Hne].
  - (* a root *)
    assert (rep g i = i) as Hr by by apply (I_root _ _ _ HI).
    rewrite Hr. exists s. split_and!; try done.
    intros k Hk. apply (on_path_root i k Hp) in Hk. by subst.
  - specialize (Hpht Hne).
    destruct (IH p Hplt) as (s1 & Hf & HI1 & Hlen1 & Hon1 & Hoff1 & Hroot1 & Hsame1);
      [rewrite Hprep; lia|].
    rewrite Hf, bind_Ok. cbn beta iota.
    assert (¬ on_path s p i) as Hnot.
    { intros Hpath. destruct (on_path_Inv HI p i Hpath Hplt) as (_ & _ & ? & _). lia. }
    destruct (Hoff1 i Hnot) as [Hpi Hdi1]. rewrite Hp in Hpi. rewrite Hdi in Hdi1.
    pose proof (Hon1 p (on_path_here s p)) as Hpp. rewrite Hprep in Hpp.
    destruct (Inv_parent HI1 p _ Hpp) as (_ & _ & _ & Hdp).
    rewrite (vget_Ok _ _ _ Hpi), bind_Ok, (vget_Ok _ _ _ Hdp), bind_Ok.
    rewrite (vget_Ok _ _ _ Hdi1), bind_Ok.
    unfold ll_add.
    replace (pot g i - pot g p + (pot g p - pot g (rep g i)))
      with (pot g i - pot g (rep g i)) by lia.
    assert (i < length (parent s1))%nat as Hi1 by lia.
    rewrite ll_check_Ok, bind_Ok
      by (apply (Inv_span_ll HI); [done | by apply (Inv_rep_lt HI) | by rewrite (Inv_rep_idem HI)]).
    rewrite vset_Ok, bind_Ok by (rewrite (I_len _ _ _ HI1); done).
    cbn zeta. unfold set_diff at 1. cbn [parent].
    rewrite vset_Ok, bind_Ok by done.
    unfold set_parent, set_diff. cbn [parent diff]. rewrite Hprep.
    eexists. split; [reflexivity|].
    assert (¬ is_root s1 i) as Hnr1 by (unfold is_root; congruence).
    split; [by apply Inv_compress|].
    cbn [parent diff]. rewrite length_insert.
    split_and!.
    + done.
    + intros k Hk. inversion Hk as [| ? p' ? Hpar Hne' Hpath]; subst.
      * by rewrite list_lookup_insert_eq.
      * assert (p' = p) as -> by congruence.
        rewrite list_lookup_insert_ne by (intros ->; done).
        rewrite <- Hprep. by apply Hon1.
    + intros k H. rewrite !list_lookup_insert_ne by (intros ->; apply H; constructor).
      apply Hoff1. intros Hpath. apply H. by econstructor.
    + intros k Hk. destruct (decide (k = i)) as [->|Hki].
      * by rewrite list_lookup_insert_eq.
      * rewrite list_lookup_insert_ne by done. by apply Hroot1.
    + intros Hpr. assert (p = rep g i) as -> by congruence.
      rewrite Hsame1 in * by (rewrite (Inv_rep_idem HI) by done; apply (Inv_rep_root HI i Hi)).
      rewrite !list_insert_id by done. by destruct s.
Qed.

(** [find] itself has fuel for every climb. *)
Lemma find_Inv g cs s i :
  Inv g cs s → (i < length (parent s))%nat →
  ∃ s', find s i = Ok (rep g i, s') ∧ Inv g cs s' ∧
        length (parent s') = length (parent s) ∧
        (∀ k, on_path s i k → parent s' !! k = Some (rep g i)) ∧
        (∀ k, ¬ on_path s i k →
              parent s' !! k = parent s !! k ∧ diff s' !! k = diff s !! k) ∧
        (∀ k, parent s !! k = Some (rep g k) → parent s' !! k = Some (rep g k)) ∧
        (parent s !! i = Some (rep g i) → s' = s).
Proof.
  intros HI Hi. apply find_fuel_Inv; [done | done | by apply (Inv_fuel HI)].
Qed.

(** More fuel does not change a result. *)
Lemma find_fuel_mono fuel fuel' s i v :
  find_fuel fuel s i = Ok v → (fuel ≤ fuel')%nat → find_fuel fuel' s i = Ok v.
Proof.
  revert fuel' s i v. induction fuel as [|fuel IH]; intros fuel' s i v Hf Hle;
    [discriminate|].
  destruct fuel' as [|fuel']; [lia|].
  cbn [find_fuel] in *.
  destruct (vget (parent s) i) as [p|e]; [|discriminate].
  rewrite bind_Ok in *. destruct (decide (p = i)); [done|].
  apply bind_Ok_inv in Hf as ([r s1] & Hrec & Hf).
  rewrite (IH fuel' _ _ _ Hrec) by lia. by rewrite bind_Ok.
Qed.

(** The walk to the root, read off the ghost state. *)
Lemma walk_Inv g cs s :
  Inv g cs s → ∀ fuel i,
  (i < length (parent s))%nat → (cr g (rep g i) < fuel + ht g i)%nat →
  walk fuel s i = Some (rep g i, pot g i - pot g (rep g i)).
Proof.
  intros HI. induction fuel as [|fuel IH]; intros i Hi Hfuel.
  { destruct (I_rep _ _ _ HI i Hi) as (_ & _ & _ & ?). lia. }
  destruct (I_par _ _ _ HI i Hi) as (p & Hp & Hplt & Hprep & Hpht & Hdi).
  cbn [walk]. rewrite Hp. cbn [mbind option_bind].
  destruct (decide (p = i)) as [->|Hne].
  - rewrite (I_root _ _ _ HI i Hp). do 2 f_equal. lia.
  - specialize (Hpht Hne). rewrite Hdi. cbn [mbind option_bind].
    rewrite IH by (rewrite ?Hprep; lia). cbn [mbind option_bind].
    rewrite Hprep. do 2 f_equal. lia.
Qed.

Lemma root_sum_Inv g cs s i :
  Inv g cs s → (i < length (parent s))%nat →
  root_sum s i = Some (rep g i, pot g i - pot g (rep g i)).
Proof. intros HI Hi. apply (walk_Inv g cs); [done | done | by apply (Inv_fuel HI)]. Qed.

Lemma root_of_Inv g cs s i :
  Inv g cs s → (i < length (parent s))%nat → root_of s i = Some (rep g i).
Proof. intros HI Hi. unfold root_of. by rewrite (root_sum_Inv g cs). Qed.

(* ------------------------------------------------------------------ *)
(** ** The constructor establishes the invariant *)

Lemma sumn_const n : sumn n (fun _ => 1%nat) = n.
Proof. induction n as [|n IH]; simpl; lia. Qed.

Lemma sumn_zero n : sumn n (fun _ => 0%nat) = 0%nat.
Proof. induction n as [|n IH]; simpl; lia. Qed.

Lemma DSU_new_Ok n s :
  DSU_new n = Ok s →
  0 <= n + 1 <= int_max ∧
  s = {| parent := seq 0 (Z.to_nat (n + 1)); diff := replicate (Z.to_nat (n + 1)) 0 |}.
Proof.
  unfold DSU_new, int_add. intros H.
  apply bind_Ok_inv in H as (sz & Hsz & H).
  apply int_check_Ok_inv in Hsz as [[_ Hmax] ->].
  destruct (n + 1 <? 0) eqn:E; [discriminate|].
  apply Z.ltb_ge in E. by injection H as <-.
Qed.

Lemma DSU_new_Inv n s : DSU_new n = Ok s → Inv ghost0 [] s.
Proof.
  intros H. apply DSU_new_Ok in H as [[Hlo Hhi] ->].
  set (N := Z.to_nat (n + 1)).
  constructor; cbn [parent diff ghost0 rep pot ht cr wt];
    rewrite ?length_seq, ?length_replicate.
  - done.
  - unfold N. lia.
  - intros i Hi. exists i. rewrite lookup_seq_lt, lookup_replicate_2 by done.
    split_and!; [done | done | done | done | f_equal; lia].
  - intros i Hi. unfold is_root. cbn [parent]. rewrite lookup_seq_lt by done.
    split_and!; [done | done | done | lia].
  - done.
  - intros. lia.
  - rewrite (sumn_ext _ _ (fun _ => 1%nat)); [by rewrite sumn_const|].
    intros k Hk. unfold root_weight. cbn [parent].
    by rewrite lookup_seq_lt, decide_True.
  - intros. lia.
  - rewrite (sumn_ext _ _ (fun _ => 0%nat)); [by rewrite sumn_zero|].
    intros k Hk. unfold root_weight. by case_decide.
  - intros a b d Hin. by apply elem_of_nil in Hin.
  - intros y r _ i _ <-. lia.
Qed.

(* ------------------------------------------------------------------ *)
(** ** Linking two roots *)

Section Link.
Context {g : ghost} {cs : list constraint} {s : DSU}.
Hypothesis HI : Inv g cs s.
Variables (i j : nat) (c : Z).
Hypothesis Hi : (i < length (parent s))%nat.
Hypothesis Hj : (j < length (parent s))%nat.
Hypothesis Hc : is_int c.
Hypothesis Hne : rep g i ≠ rep g j.

Local Abbreviation ri := (rep g i).
Local Abbreviation rj := (rep g j).
Local Abbreviation g' := (ghost_link g (rep g i) (rep g j) i j c).

Local Abbreviation linked := (link_state g s i j c).

Lemma link_root_iff r : r ≠ ri → is_root linked r ↔ is_root s r.
Proof. intros Hr. unfold is_root, link_state; cbn [parent]. by rewrite list_lookup_insert_ne. Qed.

Lemma link_not_root : ¬ is_root linked ri.
Proof.
  unfold is_root, link_state; cbn [parent].
  rewrite list_lookup_insert_eq by by apply (Inv_rep_lt HI). congruence.
Qed.

Lemma link_sum (f f' : nat → nat) :
  (∀ k, k ≠ rj → f' k = f k) →
  (sumn (length (parent s)) (root_weight linked f') + f ri + f rj =
   sumn (length (parent s)) (root_weight s f) + f' rj)%nat.
Proof.
  intros Hf.
  pose proof (Inv_rep_lt HI i Hi) as Hri. pose proof (Inv_rep_lt HI j Hj) as Hrj.
  pose proof (Inv_rep_root HI i Hi) as Rri. pose proof (Inv_rep_root HI j Hj) as Rrj.
  pose (tm := fun k => if decide (k = ri) then 0%nat else root_weight s f k).
  assert (sumn (length (parent s)) tm + root_weight s f ri =
          sumn (length (parent s)) (root_weight s f) + tm ri)%nat as H1.
  { apply sumn_update; [done|]. intros k _ Hk. unfold tm. by rewrite decide_False. }
  assert (sumn (length (parent s)) (root_weight linked f') + tm rj =
          sumn (length (parent s)) tm + root_weight linked f' rj)%nat as H2.
  { apply sumn_update; [done|]. intros k _ Hk. unfold tm.
    destruct (decide (k = ri)) as [->|Hk'].
    - unfold root_weight. rewrite decide_False; [done|]. apply link_not_root.
    - unfold root_weight, link_state; cbn [parent].
      rewrite list_lookup_insert_ne by done. by rewrite Hf. }
  unfold tm in H1 at 2. rewrite decide_True in H1 by done.
  unfold tm in H2 at 1. rewrite decide_False in H2 by done.
  rewrite (root_weight_root (s := s)) in H1, H2 by done.
  assert (root_weight linked f' rj = f' rj) as E.
  { unfold root_weight, link_state; cbn [parent].
    rewrite list_lookup_insert_ne by done. by rewrite decide_True. }
  rewrite E in H2. lia.
Qed.

Lemma Inv_link : Inv g' ((i, j, c) :: cs) linked.
Proof.
  pose proof (Inv_rep_lt HI i Hi) as Hri. pose proof (Inv_rep_lt HI j Hj) as Hrj.
  pose proof (Inv_rep_root HI i Hi) as Rri. pose proof (Inv_rep_root HI j Hj) as Rrj.
  pose proof (Inv_rep_idem HI i Hi) as Iri. pose proof (Inv_rep_idem HI j Hj) as Irj.
  assert (Hcr : 0 <= c + 2 ^ 31 ∧ c <= 2 ^ 31).
  { unfold is_int, int_min, int_max in Hc. lia. }
  constructor; unfold link_state; cbn [parent diff]; rewrite ?length_insert.
  - apply (I_len _ _ _ HI).
  - apply (I_size _ _ _ HI).
  - (* parents *)
    intros k Hk. destruct (decide (k = ri)) as [->|Hkri].
    + exists rj. rewrite !list_lookup_insert_eq by (rewrite ?(I_len _ _ _ HI); done).
      cbn [ghost_link rep pot ht]. rewrite Irj, Iri.
      rewrite !(decide_False (P := rj = ri)) by done.
      rewrite !(decide_True (P := ri = ri)) by done.
      rewrite !(decide_False (P := ri = rj)) by done.
      rewrite !(decide_True (P := rj = rj)) by done.
      split_and!; [done | done | done | lia | f_equal; lia].
    + rewrite !list_lookup_insert_ne by done.
      destruct (I_par _ _ _ HI k Hk) as (p & Hp & Hplt & Hprep & Hpht & Hd).
      exists p. cbn [ghost_link rep pot ht]. rewrite Hprep.
      split_and!; [done | done | done | | rewrite Hd; case_decide; f_equal; lia].
      intros Hpk. specialize (Hpht Hpk).
      assert (k ≠ rj) by (intros ->; unfold is_root in Rrj; congruence).
      rewrite !(decide_False (P := k = rj)) by done. case_decide as E; [rewrite E in Hpht|]; lia.
  - (* representatives *)
    intros k Hk. destruct (I_rep _ _ _ HI k Hk) as (Hrk & Rk & Hhk & Hck).
    pose proof (Inv_ht_le_rep HI k Hk) as Hle.
    pose proof (I_rep _ _ _ HI ri Hri) as (_ & _ & _ & Hcri).
    pose proof (I_rep _ _ _ HI rj Hrj) as (_ & _ & _ & Hcrj).
    rewrite Iri in Hcri. rewrite Irj in Hcrj.
    cbn [ghost_link rep ht cr].
    destruct (decide (rep g k = ri)) as [E|E].
    + assert (k ≠ rj) by (intros ->; congruence).
      rewrite !(decide_False (P := k = rj)) by done.
      rewrite !(decide_True (P := rj = rj)) by done.
      rewrite E in *.
      split_and!; [done | by apply link_root_iff | lia | lia].
    + split_and!; [done | by apply link_root_iff | |].
      * intros Hk'. specialize (Hhk Hk').
        assert (k ≠ rj) by (intros ->; congruence).
        rewrite !(decide_False (P := k = rj)) by done. case_decide; [|done].
        replace (rep g j) with (rep g k) by done. lia.
      * destruct (decide (k = rj)) as [->|Hkrj].
        -- rewrite Irj. rewrite decide_True by done. lia.
        -- case_decide as E2; [rewrite E2 in Hck|]; lia.
  - (* roots *)
    intros r Hr. assert (r ≠ ri) as Hrr by (intros ->; by apply link_not_root).
    apply link_root_iff in Hr; [|done].
    pose proof (I_root _ _ _ HI r Hr) as E. cbn [ghost_link rep].
    rewrite E. by rewrite decide_False.
  - (* spread *)
    intros a b Ha Hb. cbn [ghost_link rep pot cr].
    destruct (decide (rep g a = ri)) as [Ea|Ea];
      destruct (decide (rep g b = ri)) as [Eb|Eb]; intros Hab.
    + rewrite decide_True by done.
      pose proof (I_span _ _ _ HI a b Ha Hb ltac:(congruence)) as Sab.
      rewrite Ea in Sab. clear -Sab. lia.
    + rewrite decide_True by done.
      pose proof (I_span _ _ _ HI a i Ha Hi Ea) as Sai.
      pose proof (I_span _ _ _ HI j b Hj Hb ltac:(congruence)) as Sjb.
      rewrite Ea in Sai. clear -Sai Sjb Hcr. lia.
    + rewrite decide_True by congruence.
      pose proof (I_span _ _ _ HI b i Hb Hi Eb) as Sbi.
      pose proof (I_span _ _ _ HI j a Hj Ha ltac:(congruence)) as Sja.
      rewrite Eb in Sbi. clear -Sbi Sja Hcr. lia.
    + pose proof (I_span _ _ _ HI a b Ha Hb Hab) as Sab.
      case_decide as E2; [rewrite E2 in Sab|]; clear -Sab; lia.
  - (* credit *)
    fold (link_state g s i j c).
    pose proof (link_sum (fun k => S (cr g k)) (fun k => S (cr g' k))) as H.
    cbn [ghost_link cr] in H. rewrite decide_True in H by done.
    pose proof (I_credit _ _ _ HI).
    assert (∀ k, k ≠ rj →
              S (if decide (k = rj) then S (cr g ri + cr g rj) else cr g k) = S (cr g k))
      as Hk by (intros; by rewrite decide_False).
    specialize (H Hk). cbn [ghost_link cr]. lia.
  - (* spread, by magnitudes *)
    intros a b Ha Hb. cbn [ghost_link rep pot wt].
    destruct (decide (rep g a = ri)) as [Ea|Ea];
      destruct (decide (rep g b = ri)) as [Eb|Eb]; intros Hab.
    + rewrite decide_True by done.
      pose proof (I_wspan _ _ _ HI a b Ha Hb ltac:(congruence)) as Sab.
      rewrite Ea in Sab. clear -Sab. lia.
    + rewrite decide_True by done.
      pose proof (I_wspan _ _ _ HI a i Ha Hi Ea) as Sai.
      pose proof (I_wspan _ _ _ HI j b Hj Hb ltac:(congruence)) as Sjb.
      rewrite Ea in Sai. clear -Sai Sjb Hcr. lia.
    + rewrite decide_True by congruence.
      pose proof (I_wspan _ _ _ HI b i Hb Hi Eb) as Sbi.
      pose proof (I_wspan _ _ _ HI j a Hj Ha ltac:(congruence)) as Sja.
      rewrite Eb in Sbi. clear -Sbi Sja Hcr. lia.
    + pose proof (I_wspan _ _ _ HI a b Ha Hb Hab) as Sab.
      case_decide as E2; [rewrite E2 in Sab|]; clear -Sab; lia.
  - (* the sum of the magnitudes *)
    fold (link_state g s i j c).
    pose proof (link_sum (wt g) (wt g')) as H.
    cbn [ghost_link wt] in H. rewrite decide_True in H by done.
    pose proof (I_wsum _ _ _ HI).
    assert (∀ k, k ≠ rj →
              (if decide (k = rj) then (wt g ri + wt g rj + Z.abs_nat c)%nat else wt g k)
              = wt g k) as Hk by (intros; by rewrite decide_False).
    specialize (H Hk). cbn [total_magnitude foldr snd]. fold (total_magnitude cs).
    cbn [ghost_link wt]. lia.
  - (* the constraints *)
    intros a b d Hin. cbn [ghost_link rep pot].
    apply elem_of_cons in Hin as [[= -> -> ->]|Hin].
    + rewrite !(decide_True (P := ri = ri)) by done.
      rewrite !(decide_False (P := rj = ri)) by done.
      split_and!; [done | done | done | lia].
    + destruct (I_cs _ _ _ HI a b d Hin) as (? & ? & Hab & Hd).
      rewrite <- Hab. split_and!; [done | done | done | case_decide; lia].
  - (* completeness *)
    intros y r Hy k Hk. cbn [ghost_link rep pot] in *.
    assert (∀ r0, (r0 = ri ∨ r0 = rj → r = rj) → (r0 ≠ ri → r0 ≠ rj → r = r0) →
              ∀ a b d, (a, b, d) ∈ cs → rep g a = r0 → y a - y b = d) as Hold.
    { intros r0 H1 H2 a b d Hin Ha. apply Hy; [by apply elem_of_cons; right|].
      case_decide; [symmetry; apply H1; left; congruence|].
      destruct (decide (rep g a = rj)); [rewrite H1; [congruence | right; congruence]|].
      rewrite H2; congruence. }
    destruct (decide (r = rj)) as [->|Hrrj].
    + pose proof (I_compl _ _ _ HI y ri (Hold ri ltac:(done) ltac:(done))) as CA.
      pose proof (I_compl _ _ _ HI y rj (Hold rj ltac:(done) ltac:(done))) as CB.
      assert (y i - y j = c) as Hnew.
      { apply Hy; [by apply elem_of_cons; left|]. by rewrite decide_True. }
      pose proof (CA i Hi eq_refl). pose proof (CB j Hj eq_refl).
      rewrite !(decide_False (P := rep g rj = ri)) by congruence.
      case_decide as E; intros Hr.
      * pose proof (CA k Hk E). lia.
      * by apply CB.
    + case_decide as E; intros Hr; [congruence|]. subst r.
      pose proof (Inv_rep_idem HI k Hk) as Ik.
      rewrite !(decide_False (P := rep g (rep g k) = ri)) by congruence.
      apply (I_compl _ _ _ HI y (rep g k)); [|done|done].
      apply Hold; [intros [?|?]; congruence | done].
Qed.

End Link.

(* ------------------------------------------------------------------ *)
(** ** [unite] on a state that satisfies the invariant *)

Lemma unite_Inv g cs s i j c :
  Inv g cs s → (i < length (parent s))%nat → (j < length (parent s))%nat →
  is_int c →
  ∃ s1 s2,
    find s i = Ok (rep g i, s1) ∧ find s1 j = Ok (rep g j, s2) ∧
    Inv g cs s2 ∧ length (parent s2) = length (parent s) ∧
    diff s1 !! i = Some (pot g i - pot g (rep g i)) ∧
    diff s2 !! i = Some (pot g i - pot g (rep g i)) ∧
    diff s2 !! j = Some (pot g j - pot g (rep g j)) ∧
    unite s i j c =
      if decide (rep g i ≠ rep g j) then Ok (true, link_state g s2 i j c)
      else Ok (bool_decide (pot g i - pot g j = c), s2).
Proof.
  intros HI Hi Hj Hc.
  destruct (find_Inv g cs s i HI Hi) as (s1 & Hf1 & HI1 & Hlen1 & Hon1 & _ & _ & _).
  assert (j < length (parent s1))%nat as Hj1 by lia.
  assert (i < length (parent s1))%nat as Hi1 by lia.
  destruct (find_Inv g cs s1 j HI1 Hj1) as (s2 & Hf2 & HI2 & Hlen2 & Hon2 & _ & Hkeep2 & _).
  assert (j < length (parent s2))%nat as Hj2 by lia.
  assert (i < length (parent s2))%nat as Hi2 by lia.
  pose proof (Hon1 i (on_path_here s i)) as Hpi1.
  pose proof (Hkeep2 i Hpi1) as Hpi2.
  pose proof (Hon2 j (on_path_here s1 j)) as Hpj2.
  destruct (Inv_parent HI1 i _ Hpi1) as (_ & _ & _ & Hdi1).
  destruct (Inv_parent HI2 i _ Hpi2) as (_ & _ & _ & Hdi2).
  destruct (Inv_parent HI2 j _ Hpj2) as (_ & _ & _ & Hdj2).
  exists s1, s2. split_and!; try done; [lia|].
  pose proof (Inv_rep_lt HI2 i Hi2) as Hri. pose proof (Inv_rep_lt HI2 j Hj2) as Hrj.
  pose proof (Inv_span_bound HI2 i (rep g i) Hi2 Hri
                ltac:(by rewrite (Inv_rep_idem HI2))) as Bi.
  pose proof (Inv_span_bound HI2 j (rep g j) Hj2 Hrj
                ltac:(by rewrite (Inv_rep_idem HI2))) as Bj.
  assert (Hcr : 0 <= c + 2 ^ 31 ∧ c <= 2 ^ 31).
  { unfold is_int, int_min, int_max in Hc. lia. }
  unfold unite. rewrite Hf1, bind_Ok. cbn beta iota. rewrite Hf2, bind_Ok. cbn beta iota.
  destruct (decide (rep g i ≠ rep g j)) as [Hne|He].
  - rewrite vset_Ok, bind_Ok by done. cbn zeta. rewrite !diff_set_parent.
    rewrite (vget_Ok _ _ _ Hdj2), bind_Ok, (vget_Ok _ _ _ Hdi2), bind_Ok.
    unfold ll_sub, ll_add.
    rewrite ll_check_Ok, bind_Ok by (unfold is_ll, ll_min, ll_max; lia).
    rewrite ll_check_Ok, bind_Ok by (unfold is_ll, ll_min, ll_max; lia).
    rewrite vset_Ok, bind_Ok by (rewrite (I_len _ _ _ HI2); done).
    reflexivity.
  - apply dec_stable in He.
    rewrite (vget_Ok _ _ _ Hdi2), bind_Ok, (vget_Ok _ _ _ Hdj2), bind_Ok.
    unfold ll_sub.
    rewrite ll_check_Ok, bind_Ok by (unfold is_ll, ll_min, ll_max; lia).
    rewrite He.
    replace (pot g i - pot g (rep g j) - (pot g j - pot g (rep g j)))
      with (pot g i - pot g j) by lia.
    destruct (decide (pot g i - pot g j ≠ c)) as [Hd|Hd].
    + by rewrite bool_decide_eq_false_2.
    + apply dec_stable in Hd. by rewrite bool_decide_eq_true_2.
Qed.

(** A constraint that agrees with the potential can be added to the
    accepted ones. *)
Lemma Inv_accept g cs s i j c :
  Inv g cs s → (i < length (parent s))%nat → (j < length (parent s))%nat →
  rep g i = rep g j → pot g i - pot g j = c → Inv g ((i, j, c) :: cs) s.
Proof.
  intros HI Hi Hj Hr Hp.
  constructor; try apply HI.
  - pose proof (I_wsum _ _ _ HI). cbn [total_magnitude foldr snd].
    fold (total_magnitude cs). lia.
  - intros a b d Hin. apply elem_of_cons in Hin as [[= -> -> ->]|Hin]; [done|].
    by apply (I_cs _ _ _ HI).
  - intros y r Hy. apply (I_compl _ _ _ HI). intros a b d Hin.
    apply Hy. by apply elem_of_cons; right.
Qed.

Lemma length_link_state g s i j c :
  length (parent (link_state g s i j c)) = length (parent s).
Proof. unfold link_state; cbn [parent]. by rewrite length_insert. Qed.

(** Every reachable state satisfies the invariant for some ghost state. *)
Lemma reach_Inv n s cs :
  reach n s cs → ∃ g, Inv g cs s ∧ Z.of_nat (length (parent s)) = n + 1.
Proof.
  induction 1 as [s Hnew | s cs i r s' _ (g & HI & Hlen) Hi Hf
                 | s cs i j c b s' _ (g & HI & Hlen) Hi Hj Hc Hu].
  - exists ghost0. split; [by eapply DSU_new_Inv|].
    apply DSU_new_Ok in Hnew as [Hn ->]. cbn [parent]. rewrite length_seq. lia.
  - destruct (find_Inv g cs s i HI ltac:(lia)) as (s1 & Hf1 & HI1 & Hlen1 & _).
    rewrite Hf1 in Hf. injection Hf as <- <-. exists g. split; [done | lia].
  - destruct (unite_Inv g cs s i j c HI ltac:(lia) ltac:(lia) Hc)
      as (s1 & s2 & _ & _ & HI2 & Hlen2 & _ & _ & _ & Hu').
    rewrite Hu' in Hu. case_decide as Hr.
    + injection Hu as <- <-. eexists. split.
      * apply (Inv_link HI2); [lia | lia | done | done].
      * rewrite length_link_state. lia.
    + injection Hu as <- <-.
      exists g. case_bool_decide as Hd.
      * split; [|lia]. apply Inv_accept; [done | lia | lia | done | done].
      * split; [done | lia].
Qed.

(* ------------------------------------------------------------------ *)
(** ** Example states *)

Lemma ex_new_reach : reach 3 {| parent := seq 0 4; diff := replicate 4 0 |} [].
Proof. apply reach_new. reflexivity. Qed.

Lemma ex_pair_reach : reach 3 ex_pair [(1%nat, 2%nat, 5)].
Proof.
  apply (reach_unite 3 _ [] 1 2 5 true ex_pair ex_new_reach);
    [lia | lia | by vm_compute | reflexivity].
Qed.

Lemma ex_chain_reach : reach 3 ex_chain [(2%nat, 3%nat, 3); (1%nat, 2%nat, 5)].
Proof.
  apply (reach_unite 3 _ _ 2 3 3 true ex_chain ex_pair_reach);
    [lia | lia | by vm_compute | reflexivity].
Qed.

Lemma ex_flat_reach : reach 3 ex_flat [(2%nat, 3%nat, 3); (1%nat, 2%nat, 5)].
Proof.
  apply (reach_find 3 _ _ 1 3 ex_flat ex_chain_reach); [lia | reflexivity].
Qed.

(* ------------------------------------------------------------------ *)
(** ** Roots, termination and idempotence *)

Lemma reach_lt n s cs i :
  reach n s cs → 0 <= Z.of_nat i <= n → (i < length (parent s))%nat.
Proof. intros Hr Hi. destruct (reach_Inv n s cs Hr) as (g & _ & Hlen). lia. Qed.

(** C10. In every state reachable from a freshly constructed structure by
    calls of [find] and [unite], a root ([parent[r] == r]) has offset
    [diff[r] == 0]. *)
Theorem root_offset_zero n s cs r :
  reach n s cs → is_root s r → diff s !! r = Some 0.
Proof.
  intros Hr Hroot. destruct (reach_Inv n s cs Hr) as (g & HI & _).
  destruct (Inv_parent HI r r Hroot) as (_ & _ & _ & ->). f_equal. lia.
Qed.

Lemma root_offset_zero_witness :
  is_root ex_chain 3 ∧ diff ex_chain !! 3%nat = Some 0.
Proof.
  split; [reflexivity|].
  apply (root_offset_zero 3 ex_chain _ 3 ex_chain_reach). reflexivity.
Defined.

(** Going up never comes back: the ghost height grows with every step
    that leaves a node. *)
Lemma ancestor_ht g cs s :
  Inv g cs s → ∀ k i a, (i < length (parent s))%nat → ancestor s k i = Some a →
  (a < length (parent s))%nat ∧ (ht g i ≤ ht g a)%nat ∧
  ((0 < k)%nat → ¬ is_root s i → (ht g i < ht g a)%nat).
Proof.
  intros HI. induction k as [|k IH]; intros i a Hi Ha; cbn [ancestor] in Ha.
  { injection Ha as <-. split_and!; [done | done | lia]. }
  destruct (I_par _ _ _ HI i Hi) as (p & Hp & Hplt & _ & Hpht & _).
  rewrite Hp in Ha. cbn [mbind option_bind] in Ha.
  destruct (IH p a Hplt Ha) as (Halt & Hle & _).
  destruct (decide (p = i)) as [->|Hne].
  - split_and!; [done | done |]. intros _ Hnr. by destruct Hnr.
  - specialize (Hpht Hne). split_and!; [done | lia | intros; lia].
Qed.

(** C9. On every reachable state [find(i)] comes back with a result for
    every valid element, whatever fuel at least the size of the vector it
    is given, because the parent pointers form a forest: going up from [i]
    by one or more steps comes back to [i] only if [i] is a root. *)
Theorem find_terminates n s cs i :
  reach n s cs → 0 <= Z.of_nat i <= n →
  (∃ r s', find s i = Ok (r, s') ∧ is_root s' r ∧
           ∀ fuel, (length (parent s) ≤ fuel)%nat → find_fuel fuel s i = Ok (r, s')) ∧
  (∀ k, (0 < k)%nat → ancestor s k i = Some i → is_root s i).
Proof.
  intros Hr Hi. pose proof (reach_lt n s cs i Hr Hi) as Hlt.
  destruct (reach_Inv n s cs Hr) as (g & HI & _). split.
  - destruct (find_Inv g cs s i HI Hlt) as (s' & Hf & HI' & Hlen' & _).
    exists (rep g i), s'. split_and!; [done | | ].
    + apply (Inv_rep_root HI'). lia.
    + intros fuel Hfuel. by apply (find_fuel_mono (length (parent s))).
  - intros k Hk Ha. destruct (decide (parent s !! i = Some i)) as [|Hnr]; [done|].
    destruct (ancestor_ht g cs s HI k i i Hlt Ha) as (_ & _ & H).
    specialize (H Hk Hnr). lia.
Qed.

Lemma find_terminates_witness :
  (∃ r s', find ex_chain 1 = Ok (r, s') ∧ is_root s' r ∧
           ∀ fuel, (length (parent ex_chain) ≤ fuel)%nat →
                   find_fuel fuel ex_chain 1 = Ok (r, s')) ∧
  (∀ k, (0 < k)%nat → ancestor ex_chain k 1 = Some 1%nat → is_root ex_chain 1).
Proof. apply (find_terminates 3 ex_chain _ 1 ex_chain_reach). lia. Defined.

(** C8. After a [find] on an element, any number of further calls of
    [find] on it, with no [unite] in between, return the same root and
    leave the whole state, the stored offset of the element included, as
    the first call left it. *)
Theorem find_idempotent n s cs i r s1 :
  reach n s cs → 0 <= Z.of_nat i <= n → find s i = Ok (r, s1) →
  ∀ k, find_again k s1 i = Ok (r, s1).
Proof.
  intros Hr Hi Hf. pose proof (reach_lt n s cs i Hr Hi) as Hlt.
  destruct (reach_Inv n s cs Hr) as (g & HI & _).
  destruct (find_Inv g cs s i HI Hlt) as (s' & Hf' & HI' & Hlen' & Hon & _).
  rewrite Hf' in Hf. injection Hf as <- <-.
  assert (find s' i = Ok (rep g i, s')) as Hagain.
  { destruct (find_Inv g cs s' i HI' ltac:(lia)) as (s2 & Hf2 & _ & _ & _ & _ & _ & Hsame).
    rewrite Hf2. rewrite Hsame; [done|]. apply Hon. constructor. }
  induction k as [|k IH]; cbn [find_again]; [done|].
  by rewrite Hagain, bind_Ok.
Qed.

Lemma find_idempotent_witness :
  find ex_chain 1 = Ok (3%nat, ex_flat) ∧ find_again 4 ex_flat 1 = Ok (3%nat, ex_flat).
Proof.
  split; [reflexivity|].
  apply (find_idempotent 3 ex_chain _ 1 3 ex_flat ex_chain_reach); [lia | reflexivity].
Defined.

(* ------------------------------------------------------------------ *)
(** ** What [find] and [unite] do to the vectors *)

(** C6. [find(i)] returns the root [r] of the tree of [i] (the fixed point
    reached from [i] along the parent pointers) and, for every node [k] met
    on the way from [i] other than the root, stores [r] in [parent[k]] and
    in [diff[k]] the sum of the offsets that led from [k] to [r] before the
    call. *)
Theorem find_compresses n s cs i :
  reach n s cs → 0 <= Z.of_nat i <= n →
  ∃ r s', find s i = Ok (r, s') ∧
    is_root s r ∧ root_of s i = Some r ∧ is_root s' r ∧
    ∀ k, on_path s i k → k ≠ r →
      parent s' !! k = Some r ∧
      ∃ d, root_sum s k = Some (r, d) ∧ diff s' !! k = Some d.
Proof.
  intros Hr Hi. pose proof (reach_lt n s cs i Hr Hi) as Hlt.
  destruct (reach_Inv n s cs Hr) as (g & HI & _).
  destruct (find_Inv g cs s i HI Hlt) as (s' & Hf & HI' & Hlen' & Hon & _).
  exists (rep g i), s'. split_and!.
  - done.
  - by apply (Inv_rep_root HI).
  - by apply (root_of_Inv g cs).
  - apply (Inv_rep_root HI'). lia.
  - intros k Hk Hkr. pose proof (Hon k Hk) as Hpk. split; [done|].
    destruct (on_path_Inv HI i k Hk Hlt) as (Hklt & Hrep & _).
    exists (pot g k - pot g (rep g i)). split.
    + rewrite (root_sum_Inv g cs) by done. by rewrite Hrep.
    + by destruct (Inv_parent HI' k _ Hpk) as (_ & _ & _ & ->).
Qed.

Lemma find_compresses_witness :
  ∃ r s', find ex_chain 1 = Ok (r, s') ∧
    is_root ex_chain r ∧ root_of ex_chain 1 = Some r ∧ is_root s' r ∧
    ∀ k, on_path ex_chain 1 k → k ≠ r →
      parent s' !! k = Some r ∧
      ∃ d, root_sum ex_chain k = Some (r, d) ∧ diff s' !! k = Some d.
Proof. apply (find_compresses 3 ex_chain _ 1 ex_chain_reach). lia. Defined.

(** An assignment that satisfies the accepted constraints agrees with the
    potential inside every tree. *)
Lemma Inv_sat_in g cs s y i :
  Inv g cs s → (i < length (parent s))%nat → sat_in s (rep g i) y cs →
  y i - y (rep g i) = pot g i - pot g (rep g i).
Proof.
  intros HI Hi Hy. apply (I_compl _ _ _ HI y (rep g i)); [|done|done].
  intros a b d Hin Ha. destruct (I_cs _ _ _ HI a b d Hin) as (Halt & _).
  apply (Hy (a, b, d) Hin). cbn [fst]. rewrite (root_of_Inv g cs) by done. by rewrite Ha.
Qed.

Lemma sat_sat_in s r y cs : sat y cs → sat_in s r y cs.
Proof. intros Hy k Hk _. by apply Hy. Qed.

Lemma Inv_sat g cs s : Inv g cs s → sat (pot g) cs.
Proof.
  intros HI [[a b] d] Hin. unfold holds; cbn [fst snd].
  by destruct (I_cs _ _ _ HI a b d Hin) as (_ & _ & _ & ?).
Qed.

(** C2. In every state left by a completed [find] or [unite], for every
    element [i], the offsets along the parent pointers from [i] to its
    root [r] add up to the value of [x_i - x_r] in every assignment that
    satisfies the constraints accepted so far in the tree of [r]; and the
    accepted constraints do have a solution. *)
Theorem offsets_sum_to_root n s cs i :
  reach n s cs → 0 <= Z.of_nat i <= n →
  ∃ r d, root_sum s i = Some (r, d) ∧ is_root s r ∧
         satisfiable cs ∧
         ∀ y, sat_in s r y cs → y i - y r = d.
Proof.
  intros Hr Hi. pose proof (reach_lt n s cs i Hr Hi) as Hlt.
  destruct (reach_Inv n s cs Hr) as (g & HI & _).
  exists (rep g i), (pot g i - pot g (rep g i)). split_and!.
  - by apply (root_sum_Inv g cs).
  - by apply (Inv_rep_root HI).
  - exists (pot g). by apply (Inv_sat g cs s).
  - intros y Hy. by apply (Inv_sat_in g cs s).
Qed.

Lemma offsets_sum_to_root_witness :
  ∃ r d, root_sum ex_chain 1 = Some (r, d) ∧ is_root ex_chain r ∧
         satisfiable [(2%nat, 3%nat, 3); (1%nat, 2%nat, 5)] ∧
         ∀ y, sat_in ex_chain r y [(2%nat, 3%nat, 3); (1%nat, 2%nat, 5)] → y 1%nat - y r = d.
Proof. apply (offsets_sum_to_root 3 ex_chain _ 1 ex_chain_reach). lia. Defined.

(** C3. When the two calls of [find] in [unite(i, j, c)] return distinct
    roots [ri] and [rj], with [offi] and [offj] the offsets they leave in
    [diff[i]] and [diff[j]], then [unite] returns [true] for every [c] and
    its only stores are [parent[ri] = rj] and
    [diff[ri] = c + offj - offi]; [ri] and [rj] were roots. *)
Theorem unite_distinct_roots n s cs i j c ri rj s1 s2 offi offj :
  reach n s cs → 0 <= Z.of_nat i <= n → 0 <= Z.of_nat j <= n → is_int c →
  find s i = Ok (ri, s1) → find s1 j = Ok (rj, s2) → ri ≠ rj →
  diff s1 !! i = Some offi → diff s2 !! j = Some offj →
  unite s i j c =
    Ok (true, {| parent := <[ri := rj]> (parent s2);
                 diff := <[ri := c + offj - offi]> (diff s2) |}) ∧
  is_root s2 ri ∧ is_root s2 rj ∧ diff s2 !! i = Some offi ∧
  <[ri := rj]> (parent s2) !! ri = Some rj ∧
  <[ri := c + offj - offi]> (diff s2) !! ri = Some (c + offj - offi).
Proof.
  intros Hr Hi Hj Hc Hf1 Hf2 Hne Hoi Hoj.
  pose proof (reach_lt n s cs i Hr Hi) as Hilt.
  pose proof (reach_lt n s cs j Hr Hj) as Hjlt.
  destruct (reach_Inv n s cs Hr) as (g & HI & _).
  destruct (unite_Inv g cs s i j c HI Hilt Hjlt Hc)
    as (s1' & s2' & Hf1' & Hf2' & HI2 & Hlen2 & Hd1 & Hdi2 & Hdj2 & Hu).
  rewrite Hf1' in Hf1. injection Hf1 as <- <-.
  rewrite Hf2' in Hf2. injection Hf2 as <- <-.
  rewrite Hd1 in Hoi. injection Hoi as <-. rewrite Hdj2 in Hoj. injection Hoj as <-.
  rewrite decide_True in Hu by done.
  assert (rep g i < length (parent s2'))%nat as Hrilt
    by (apply (Inv_rep_lt HI2); lia).
  split_and!.
  - rewrite Hu. unfold link_state.
    by replace (c + (pot g j - pot g (rep g j)) - (pot g i - pot g (rep g i)))
      with (pot g j - pot g (rep g j) - (pot g i - pot g (rep g i)) + c) by lia.
  - apply (Inv_rep_root HI2). lia.
  - apply (Inv_rep_root HI2). lia.
  - done.
  - by rewrite list_lookup_insert_eq.
  - rewrite list_lookup_insert_eq; [done|]. by rewrite (I_len _ _ _ HI2).
Qed.

Lemma unite_distinct_roots_witness :
  unite ex_pair 1 3 7 =
    Ok (true, {| parent := <[2%nat := 3%nat]> (parent ex_pair);
                 diff := <[2%nat := 7 + 0 - 5]> (diff ex_pair) |}) ∧
  is_root ex_pair 2 ∧ is_root ex_pair 3 ∧ diff ex_pair !! 1%nat = Some 5 ∧
  <[2%nat := 3%nat]> (parent ex_pair) !! 2%nat = Some 3%nat ∧
  <[2%nat := 7 + 0 - 5]> (diff ex_pair) !! 2%nat = Some (7 + 0 - 5).
Proof.
  apply (unite_distinct_roots 3 ex_pair _ 1 3 7 2 3 ex_pair ex_pair 5 0 ex_pair_reach);
    first [lia | by vm_compute | reflexivity].
Defined.

(** C4. When the two calls of [find] in [unite(i, j, c)] return the same
    root, with [offi] and [offj] the offsets they leave in [diff[i]] and
    [diff[j]], then [unite] returns [false] exactly when
    [offi - offj != c], and in either case the state it leaves is the
    state left by the two calls of [find]. *)
Theorem unite_same_root n s cs i j c r s1 s2 offi offj :
  reach n s cs → 0 <= Z.of_nat i <= n → 0 <= Z.of_nat j <= n → is_int c →
  find s i = Ok (r, s1) → find s1 j = Ok (r, s2) →
  diff s2 !! i = Some offi → diff s2 !! j = Some offj →
  ∃ b, unite s i j c = Ok (b, s2) ∧ (b = false ↔ offi - offj ≠ c).
Proof.
  intros Hr Hi Hj Hc Hf1 Hf2 Hoi Hoj.
  pose proof (reach_lt n s cs i Hr Hi) as Hilt.
  pose proof (reach_lt n s cs j Hr Hj) as Hjlt.
  destruct (reach_Inv n s cs Hr) as (g & HI & _).
  destruct (unite_Inv g cs s i j c HI Hilt Hjlt Hc)
    as (s1' & s2' & Hf1' & Hf2' & HI2 & Hlen2 & Hd1 & Hdi2 & Hdj2 & Hu).
  rewrite Hf1' in Hf1. injection Hf1 as <- <-.
  rewrite Hf2' in Hf2. injection Hf2 as Hrr <-.
  rewrite Hdi2 in Hoi. injection Hoi as <-. rewrite Hdj2 in Hoj. injection Hoj as <-.
  rewrite decide_False in Hu by (intros H; by apply H).
  eexists. split; [exact Hu|]. rewrite Hrr.
  rewrite bool_decide_eq_false. split; intros H; lia.
Qed.

Lemma unite_same_root_witness :
  ∃ b, unite ex_chain 1 3 9 = Ok (b, ex_flat) ∧ (b = false ↔ 8 - 0 ≠ 9).
Proof.
  apply (unite_same_root 3 ex_chain _ 1 3 9 3 ex_flat ex_flat 8 0 ex_chain_reach);
    first [lia | by vm_compute | reflexivity].
Defined.

(* ------------------------------------------------------------------ *)
(** ** The 64-bit range *)

Lemma reach_int n s cs : reach n s cs → ∀ k, k ∈ cs → is_int k.2.
Proof.
  induction 1 as [| |s cs i j c b s' _ IH Hi Hj Hc Hu]; intros k Hk.
  - by apply elem_of_nil in Hk.
  - auto.
  - destruct b; [|auto]. apply elem_of_cons in Hk as [->|Hk]; [done | auto].
Qed.

Lemma total_magnitude_le cs :
  (∀ k, k ∈ cs → is_int k.2) → total_magnitude cs <= 2 ^ 31 * Z.of_nat (length cs).
Proof.
  induction cs as [|k cs IH]; intros H; cbn [total_magnitude foldr length].
  - lia.
  - fold (total_magnitude cs).
    assert (is_int k.2) as Hk by (apply H; by left).
    assert (total_magnitude cs <= 2 ^ 31 * Z.of_nat (length cs)) as Hcs.
    { apply IH. intros k' Hk'. apply H. by right. }
    unfold is_int, int_min, int_max in Hk. lia.
Qed.

Lemma Inv_wt_le g cs s i :
  Inv g cs s → (i < length (parent s))%nat →
  Z.of_nat (wt g (rep g i)) <= total_magnitude cs.
Proof.
  intros HI Hi.
  pose proof (sumn_ge (length (parent s)) (root_weight s (wt g)) (rep g i)
                (Inv_rep_lt HI i Hi)) as H.
  rewrite (root_weight_root (s := s)) in H by by apply (Inv_rep_root HI).
  pose proof (I_wsum _ _ _ HI). lia.
Qed.

(** C7. On every reachable state each stored offset, and each sum of
    offsets along a chain of parent pointers, is bounded in magnitude by
    the sum of the magnitudes of the accepted constraints (at most [2^31]
    for each of them) and by [2^31 * n]; these lie inside the range of a
    64-bit signed integer, and no 64-bit step of [find] or of [unite]
    (which brings in the [int] value [c]) leaves that range: both come
    back with a result. *)
Theorem offsets_fit_64_bits n s cs :
  reach n s cs →
  (∀ k d, diff s !! k = Some d →
     Z.abs d <= total_magnitude cs ∧ Z.abs d <= 2 ^ 31 * n ∧ is_ll d) ∧
  total_magnitude cs <= 2 ^ 31 * Z.of_nat (length cs) ∧
  2 ^ 31 * n < 2 ^ 62 ∧
  (∀ i, 0 <= Z.of_nat i <= n →
     ∃ r d, root_sum s i = Some (r, d) ∧
            Z.abs d <= total_magnitude cs ∧ Z.abs d <= 2 ^ 31 * n ∧ is_ll d) ∧
  (∀ i, 0 <= Z.of_nat i <= n → ∃ v, find s i = Ok v) ∧
  (∀ i j c, 0 <= Z.of_nat i <= n → 0 <= Z.of_nat j <= n → is_int c →
     ∃ v, unite s i j c = Ok v).
Proof.
  intros Hr. destruct (reach_Inv n s cs Hr) as (g & HI & Hlen).
  pose proof (I_size _ _ _ HI) as Hsize. unfold int_max in Hsize.
  assert (∀ a b, (a < length (parent s))%nat → (b < length (parent s))%nat →
            rep g a = rep g b →
            Z.abs (pot g a - pot g b) <= total_magnitude cs ∧
            Z.abs (pot g a - pot g b) <= 2 ^ 31 * n ∧ is_ll (pot g a - pot g b)) as Hb.
  { intros a b Ha Hb Hab.
    pose proof (I_wspan _ _ _ HI a b Ha Hb Hab).
    pose proof (Inv_wt_le g cs s a HI Ha).
    pose proof (I_span _ _ _ HI a b Ha Hb Hab).
    pose proof (Inv_cr_lt HI a Ha).
    split_and!; [lia | nia | by apply (Inv_span_ll HI)]. }
  split_and!.
  - intros k d Hd.
    assert (k < length (parent s))%nat as Hk.
    { apply lookup_lt_Some in Hd. by rewrite (I_len _ _ _ HI) in Hd. }
    destruct (I_par _ _ _ HI k Hk) as (p & _ & Hp & Hrep & _ & Hd').
    rewrite Hd' in Hd. injection Hd as <-. by apply Hb.
  - apply total_magnitude_le. by apply (reach_int n s).
  - lia.
  - intros i Hi. assert (i < length (parent s))%nat as Hilt by lia.
    exists (rep g i), (pot g i - pot g (rep g i)).
    split; [by apply (root_sum_Inv g cs)|].
    apply Hb; [done | by apply (Inv_rep_lt HI) | by rewrite (Inv_rep_idem HI)].
  - intros i Hi. assert (i < length (parent s))%nat as Hilt by lia.
    destruct (find_Inv g cs s i HI Hilt) as (s' & Hf & _). eauto.
  - intros i j c Hi Hj Hc.
    destruct (unite_Inv g cs s i j c HI ltac:(lia) ltac:(lia) Hc)
      as (s1 & s2 & _ & _ & _ & _ & _ & _ & _ & Hu).
    rewrite Hu. case_decide; eauto.
Qed.

Lemma offsets_fit_64_bits_witness :
  (∀ k d, diff ex_chain !! k = Some d →
     Z.abs d <= total_magnitude [(2%nat, 3%nat, 3); (1%nat, 2%nat, 5)] ∧
     Z.abs d <= 2 ^ 31 * 3 ∧ is_ll d) ∧
  total_magnitude [(2%nat, 3%nat, 3); (1%nat, 2%nat, 5)] <= 2 ^ 31 * Z.of_nat 2 ∧
  2 ^ 31 * 3 < 2 ^ 62 ∧
  (∀ i, 0 <= Z.of_nat i <= 3 →
     ∃ r d, root_sum ex_chain i = Some (r, d) ∧
            Z.abs d <= total_magnitude [(2%nat, 3%nat, 3); (1%nat, 2%nat, 5)] ∧
            Z.abs d <= 2 ^ 31 * 3 ∧ is_ll d) ∧
  (∀ i, 0 <= Z.of_nat i <= 3 → ∃ v, find ex_chain i = Ok v) ∧
  (∀ i j c, 0 <= Z.of_nat i <= 3 → 0 <= Z.of_nat j <= 3 → is_int c →
     ∃ v, unite ex_chain i j c = Ok v).
Proof. exact (offsets_fit_64_bits 3 ex_chain _ ex_chain_reach). Defined.

(* ------------------------------------------------------------------ *)
(** ** The loop of [solve] *)

Lemma read_int_Ok z rest : is_int z → read_int (z :: rest) = Ok (z, rest).
Proof.
  unfold is_int, read_int. intros [H1 H2].
  apply Z.leb_le in H1, H2. by rewrite H1, H2.
Qed.

Lemma index_Ok z : 0 <= z → index z = Ok (Z.to_nat z).
Proof. unfold index. intros H. apply Z.ltb_ge in H. by rewrite H. Qed.

Lemma solve_step_skip st i j c rest :
  ls_consistent st = false → ls_input st = i :: j :: c :: rest →
  is_int i → is_int j → is_int c →
  solve_step st =
    Ok {| ls_dsu := ls_dsu st; ls_consistent := false; ls_input := rest;
          ls_calls := ls_calls st |}.
Proof.
  intros Hc Hin Hi Hj Hcc. unfold solve_step. rewrite Hin.
  rewrite (read_int_Ok i) by done. rewrite bind_Ok. cbn beta iota.
  rewrite (read_int_Ok j) by done. rewrite bind_Ok. cbn beta iota.
  rewrite (read_int_Ok c) by done. rewrite bind_Ok. cbn beta iota.
  by rewrite Hc.
Qed.

Lemma solve_step_unite st i j c rest b d :
  ls_consistent st = true → ls_input st = i :: j :: c :: rest →
  is_int i → is_int j → is_int c → 0 <= i → 0 <= j →
  unite (ls_dsu st) (Z.to_nat i) (Z.to_nat j) c = Ok (b, d) →
  solve_step st =
    Ok {| ls_dsu := d; ls_consistent := b; ls_input := rest;
          ls_calls := S (ls_calls st) |}.
Proof.
  intros Hc Hin Hi Hj Hcc Hi0 Hj0 Hu. unfold solve_step. rewrite Hin.
  rewrite (read_int_Ok i) by done. rewrite bind_Ok. cbn beta iota.
  rewrite (read_int_Ok j) by done. rewrite bind_Ok. cbn beta iota.
  rewrite (read_int_Ok c) by done. rewrite bind_Ok. cbn beta iota.
  rewrite Hc, !index_Ok by done. rewrite !bind_Ok, Hu. by rewrite bind_Ok.
Qed.

(** Once [consistent] is [false], the loop reads three integers per
    iteration and does nothing else. *)
Lemma solve_loop_skip todo : ∀ st toks rest,
  ls_consistent st = false → length toks = (3 * todo)%nat → Forall is_int toks →
  ls_input st = toks ++ rest →
  solve_loop todo st =
    Ok {| ls_dsu := ls_dsu st; ls_consistent := false; ls_input := rest;
          ls_calls := ls_calls st |}.
Proof.
  induction todo as [|todo IH]; intros st toks rest Hc Hlen Hint Hin.
  - destruct toks; [|discriminate]. cbn [solve_loop]. simpl in Hin.
    destruct st; simpl in *. by subst.
  - destruct toks as [|i [|j [|c toks]]]; try (simpl in Hlen; lia).
    apply Forall_cons in Hint as [Hi Hint]. apply Forall_cons in Hint as [Hj Hint].
    apply Forall_cons in Hint as [Hcc Hint].
    cbn [solve_loop]. rewrite (solve_step_skip st i j c (toks ++ rest)) by done.
    rewrite bind_Ok. rewrite (IH _ toks rest); [done | done | | done | done].
    simpl in Hlen. lia.
Qed.

(** C5. When [unite] reports a contradiction in an iteration of the loop
    of [solve], the remaining iterations read their three integers each
    (whatever integers they are) and make no call of [unite]: the
    structure stays as that call left it, the input is consumed up to the
    end of the test case, and the verdict is [NO]. *)
Theorem contradiction_skips_rest st i j c d todo toks rest :
  ls_consistent st = true →
  ls_input st = i :: j :: c :: toks ++ rest →
  is_int i → is_int j → is_int c → 0 <= i → 0 <= j →
  unite (ls_dsu st) (Z.to_nat i) (Z.to_nat j) c = Ok (false, d) →
  length toks = (3 * todo)%nat → Forall is_int toks →
  ∃ st', solve_loop (S todo) st = Ok st' ∧
         ls_dsu st' = d ∧ ls_calls st' = S (ls_calls st) ∧ ls_input st' = rest ∧
         verdict (ls_consistent st') = "NO"%string.
Proof.
  intros Hc Hin Hi Hj Hcc Hi0 Hj0 Hu Hlen Hint.
  cbn [solve_loop]. rewrite (solve_step_unite st i j c (toks ++ rest) false d) by done.
  rewrite bind_Ok. rewrite (solve_loop_skip todo _ toks rest) by done.
  eexists. split; [reflexivity|]. done.
Qed.

Lemma contradiction_skips_rest_witness :
  ∃ st', solve_loop 3
           {| ls_dsu := ex_chain; ls_consistent := true;
              ls_input := [1; 3; 9; 7; -4; 100; 2; 2; 1; 42]; ls_calls := 2 |} = Ok st' ∧
         ls_dsu st' = ex_flat ∧ ls_calls st' = 3%nat ∧ ls_input st' = [42] ∧
         verdict (ls_consistent st') = "NO"%string.
Proof.
  apply (contradiction_skips_rest
           {| ls_dsu := ex_chain; ls_consistent := true;
              ls_input := [1; 3; 9; 7; -4; 100; 2; 2; 1; 42]; ls_calls := 2 |}
           1 3 9 ex_flat 2 [7; -4; 100; 2; 2; 1] [42]).
  - reflexivity.
  - reflexivity.
  - by vm_compute.
  - by vm_compute.
  - by vm_compute.
  - lia.
  - lia.
  - by vm_compute.
  - reflexivity.
  - repeat constructor; by vm_compute.
Defined.

(* ------------------------------------------------------------------ *)
(** ** The verdict *)

Lemma sat_app y cs1 cs2 : sat y (cs1 ++ cs2) ↔ sat y cs1 ∧ sat y cs2.
Proof.
  unfold sat. split.
  - intros H. split; intros k Hk; apply H; apply elem_of_app; auto.
  - intros [H1 H2] k Hk. apply elem_of_app in Hk as [?|?]; auto.
Qed.

Lemma sat_cons y k cs : sat y (k :: cs) ↔ holds y k ∧ sat y cs.
Proof.
  unfold sat. split.
  - intros H. split; [apply H; by left | intros k' Hk'; apply H; by right].
  - intros [H1 H2] k' Hk'. apply elem_of_cons in Hk' as [->|?]; auto.
Qed.

(** Inside a tree, every solution of the accepted constraints has the
    differences of the potential. *)
Lemma Inv_sat_diff g cs s y i j :
  Inv g cs s → (i < length (parent s))%nat → (j < length (parent s))%nat →
  rep g i = rep g j → sat y cs → y i - y j = pot g i - pot g j.
Proof.
  intros HI Hi Hj Hij Hy.
  pose proof (Inv_sat_in g cs s y i HI Hi (sat_sat_in _ _ _ _ Hy)).
  pose proof (Inv_sat_in g cs s y j HI Hj (sat_sat_in _ _ _ _ Hy)).
  rewrite Hij in *. lia.
Qed.

Lemma length_encode_constraints cs :
  length (encode_constraints cs) = (3 * length cs)%nat.
Proof.
  induction cs as [|k cs IH]; [done|].
  cbn [encode_constraints flat_map app length]. fold (encode_constraints cs). lia.
Qed.

Lemma solve_loop_correct n : ∀ cs st g acc rest,
  Inv g acc (ls_dsu st) → Z.of_nat (length (parent (ls_dsu st))) = n + 1 →
  ls_consistent st = true →
  ls_input st = encode_constraints cs ++ rest →
  (∀ k, k ∈ cs → 0 <= k.1.1 <= n ∧ 0 <= k.1.2 <= n ∧ is_int k.2) →
  is_int n →
  ∃ st', solve_loop (length cs) st = Ok st' ∧ ls_input st' = rest ∧
         (ls_consistent st' = true ↔ satisfiable (map to_constraint cs ++ acc)).
Proof.
  induction cs as [|[[i j] c] cs IH]; intros st g acc rest HI Hlen Hc Hin Hwf Hn.
  - exists st. split_and!; [done | done |]. split; [|done].
    intros _. exists (pot g). by apply (Inv_sat g acc (ls_dsu st)).
  - destruct (Hwf (i, j, c) ltac:(by left)) as (Hi & Hj & Hcc). cbn [fst snd] in Hi, Hj, Hcc.
    assert (is_int i ∧ is_int j) as [Hii Hij].
    { unfold is_int, int_min, int_max in *. lia. }
    assert (∀ k, k ∈ cs → 0 <= k.1.1 <= n ∧ 0 <= k.1.2 <= n ∧ is_int k.2) as Hwf'.
    { intros k Hk. apply Hwf. by right. }
    assert (Forall is_int (encode_constraints cs)) as Hints.
    { clear -Hwf' Hn. induction cs as [|k cs IHcs]; [constructor|].
      destruct (Hwf' k ltac:(by left)) as (H1 & H2 & H3).
      cbn [encode_constraints flat_map app].
      repeat apply Forall_cons_2;
        [| | done | apply IHcs; intros k' Hk'; apply Hwf'; by right];
        unfold is_int, int_min, int_max in *; lia. }
    pose proof (length_encode_constraints cs) as Hlen3.
    assert (Z.to_nat i < length (parent (ls_dsu st)))%nat as Hilt by lia.
    assert (Z.to_nat j < length (parent (ls_dsu st)))%nat as Hjlt by lia.
    destruct (unite_Inv g acc (ls_dsu st) (Z.to_nat i) (Z.to_nat j) c HI Hilt Hjlt Hcc)
      as (s1 & s2 & _ & _ & HI2 & Hlen2 & _ & _ & _ & Hu).
    cbn [encode_constraints flat_map app fst snd] in Hin.
    fold (encode_constraints cs) in Hin.
    cbn [length solve_loop map].
    assert (∀ b d, unite (ls_dsu st) (Z.to_nat i) (Z.to_nat j) c = Ok (b, d) →
              solve_step st =
                Ok {| ls_dsu := d; ls_consistent := b;
                      ls_input := encode_constraints cs ++ rest;
                      ls_calls := S (ls_calls st) |}) as Hstep.
    { intros b d Hbd. apply (solve_step_unite st i j c); try done; lia. }
    case_decide as Hr.
    + (* two trees become one *)
      rewrite (Hstep _ _ Hu), bind_Ok.
      assert (Inv (ghost_link g (rep g (Z.to_nat i)) (rep g (Z.to_nat j))
                     (Z.to_nat i) (Z.to_nat j) c)
                ((Z.to_nat i, Z.to_nat j, c) :: acc)
                (link_state g s2 (Z.to_nat i) (Z.to_nat j) c)) as HI3
        by (apply (Inv_link HI2); [lia | lia | done | done]).
      destruct (IH {| ls_dsu := link_state g s2 (Z.to_nat i) (Z.to_nat j) c;
                      ls_consistent := true;
                      ls_input := encode_constraints cs ++ rest;
                      ls_calls := S (ls_calls st) |} _ _ rest HI3)
        as (st' & Hloop & Hrest & Hiff);
        [cbn [ls_dsu]; rewrite length_link_state; lia | done.. |].
      exists st'. split_and!; [done | done |]. rewrite Hiff.
      unfold satisfiable. cbn [app]. unfold to_constraint at 3. cbn [fst snd].
      setoid_rewrite sat_app. setoid_rewrite sat_cons. setoid_rewrite sat_app.
      split; intros (y & ?); exists y; tauto.
    + case_bool_decide as Hd.
      * (* the constraint is implied *)
        rewrite (Hstep _ _ Hu), bind_Ok.
        assert (Inv g ((Z.to_nat i, Z.to_nat j, c) :: acc) s2) as HI3
          by (apply Inv_accept; [done | lia | lia | done | done]).
        destruct (IH {| ls_dsu := s2; ls_consistent := true;
                        ls_input := encode_constraints cs ++ rest;
                        ls_calls := S (ls_calls st) |} _ _ rest HI3)
          as (st' & Hloop & Hrest & Hiff); [cbn [ls_dsu]; lia | done.. |].
        exists st'. split_and!; [done | done |]. rewrite Hiff.
        unfold satisfiable. cbn [app]. unfold to_constraint at 3. cbn [fst snd].
        setoid_rewrite sat_app. setoid_rewrite sat_cons. setoid_rewrite sat_app.
        split; intros (y & ?); exists y; tauto.
      * (* the constraint is contradicted *)
        rewrite (Hstep _ _ Hu), bind_Ok.
        rewrite (solve_loop_skip (length cs) _ (encode_constraints cs) rest) by done.
        eexists. split_and!; [reflexivity | done |]. cbn [ls_consistent].
        split; [discriminate|]. intros (y & Hy). exfalso.
        cbn [app] in Hy. apply sat_cons in Hy as [Hk Hy]. apply sat_app in Hy as [_ Hy].
        unfold holds, to_constraint in Hk. cbn [fst snd] in Hk.
        pose proof (Inv_sat_diff g acc s2 y (Z.to_nat i) (Z.to_nat j) HI2
                      ltac:(lia) ltac:(lia) Hr Hy). lia.
Qed.

(** With non-negative element ids, a solution over the subscripts is a
    solution over the ids and back. *)
Lemma satisfiable_consistent cs :
  (∀ k, k ∈ cs → 0 <= k.1.1 ∧ 0 <= k.1.2) →
  satisfiable (map to_constraint cs) ↔ consistent cs.
Proof.
  intros Hpos. split.
  - intros (y & Hy). exists (fun z => y (Z.to_nat z)). intros k Hk.
    apply (Hy (to_constraint k)). apply list_elem_of_fmap. eauto.
  - intros (x & Hx). exists (fun i => x (Z.of_nat i)). intros k' Hk'.
    apply list_elem_of_fmap in Hk' as (k & -> & Hk).
    destruct (Hpos k Hk) as [H1 H2].
    unfold holds, to_constraint; cbn [fst snd]. rewrite !Z2Nat.id by done. by apply Hx.
Qed.

(** [solve] on a well-formed test case: it reads exactly the test case
    and prints the line that belongs to it. *)
Lemma solve_correct tc rest :
  well_formed tc →
  ∃ line, solve (encode_case tc ++ rest) = Ok (line, rest) ∧ right_line line tc.
Proof.
  intros (Hn0 & Hn1 & Hm & Hwf).
  assert (is_int (tc_n tc)) as Hn by (unfold is_int, int_min, int_max in *; lia).
  assert (is_int (Z.of_nat (length (tc_constraints tc)))) as Hmi
    by (unfold is_int, int_min, int_max in *; lia).
  destruct (DSU_new (tc_n tc)) as [dsu|e] eqn:Hnew; cycle 1.
  { unfold DSU_new, int_add in Hnew. rewrite int_check_Ok in Hnew
      by (unfold is_int, int_min, int_max in *; lia).
    rewrite bind_Ok in Hnew. destruct (tc_n tc + 1 <? 0) eqn:E; [|discriminate].
    apply Z.ltb_lt in E. lia. }
  pose proof (DSU_new_Inv _ _ Hnew) as HI.
  assert (Z.of_nat (length (parent dsu)) = tc_n tc + 1) as Hlen.
  { apply DSU_new_Ok in Hnew as [_ ->]. cbn [parent]. rewrite length_seq. lia. }
  assert (∀ k, k ∈ tc_constraints tc →
            0 <= k.1.1 <= tc_n tc ∧ 0 <= k.1.2 <= tc_n tc ∧ is_int k.2) as Hwf0.
  { intros k Hk. destruct (Hwf k Hk) as (? & ? & ?). split_and!; first [lia | done]. }
  destruct (solve_loop_correct (tc_n tc) (tc_constraints tc)
              {| ls_dsu := dsu; ls_consistent := true;
                 ls_input := encode_constraints (tc_constraints tc) ++ rest;
                 ls_calls := 0 |} ghost0 [] rest HI Hlen eq_refl eq_refl Hwf0 Hn)
    as (st' & Hloop & Hrest & Hiff).
  exists (verdict (ls_consistent st')). split.
  - unfold solve, solve_run, encode_case. cbn [app].
    rewrite read_int_Ok, bind_Ok by done. cbn beta iota.
    rewrite read_int_Ok, bind_Ok by done. cbn beta iota.
    rewrite Hnew, bind_Ok, Nat2Z.id, Hloop, bind_Ok. by rewrite Hrest.
  - rewrite app_nil_r in Hiff. rewrite satisfiable_consistent in Hiff.
    + unfold right_line. destruct (ls_consistent st'); cbn [verdict].
      * left. split; [done|]. by apply Hiff.
      * right. split; [done|]. intros H. apply Hiff in H. discriminate.
    + intros k Hk. destruct (Hwf k Hk) as (? & ? & ?). lia.
Qed.

Lemma main_loop_correct : ∀ tcs rest out,
  Forall well_formed tcs →
  ∃ lines, main_loop (length tcs) (flat_map encode_case tcs ++ rest) out
             = Ok (out ++ lines) ∧
           Forall2 right_line lines tcs.
Proof.
  induction tcs as [|tc tcs IH]; intros rest out Hwf.
  - exists []. cbn [length main_loop]. rewrite app_nil_r. by split.
  - apply Forall_cons in Hwf as [Htc Hwf].
    cbn [length main_loop flat_map]. rewrite <- app_assoc.
    destruct (solve_correct tc (flat_map encode_case tcs ++ rest) Htc)
      as (line & Hsolve & Hline).
    rewrite Hsolve, bind_Ok. cbn beta iota.
    destruct (IH rest (out ++ [line]) Hwf) as (lines & Hloop & Hlines).
    exists (line :: lines). rewrite Hloop. split.
    + by rewrite <- app_assoc.
    + by constructor.
Qed.

(** C1. On an input of [t] well-formed test cases the program prints one
    line per test case, in their order: [YES] if the constraints
    [x_i - x_j = c] of the test case have an integer solution, [NO] if
    they have none. *)
Theorem main_correct tcs rest :
  Forall well_formed tcs → Z.of_nat (length tcs) <= int_max →
  ∃ lines, main (Z.of_nat (length tcs) :: flat_map encode_case tcs ++ rest) = Ok lines ∧
           Forall2 right_line lines tcs.
Proof.
  intros Hwf Ht.
  destruct (main_loop_correct tcs rest [] Hwf) as (lines & Hloop & Hlines).
  exists lines. split; [|done].
  unfold main. rewrite read_int_Ok, bind_Ok
    by (unfold is_int, int_min, int_max in *; lia).
  cbn beta iota.
  destruct (Z.of_nat (length tcs) <? 0) eqn:E; [apply Z.ltb_lt in E; lia|].
  by rewrite Nat2Z.id, Hloop.
Qed.

Lemma case_A_well_formed : well_formed case_A.
Proof.
  unfold well_formed, case_A; cbn [tc_n tc_constraints length].
  split; [lia|]. split; [by vm_compute|]. split; [by vm_compute|].
  intros k Hk.
  repeat (apply elem_of_cons in Hk as [->|Hk]); [.. | by apply elem_of_nil in Hk];
    cbn [fst snd]; (split_and!; first [lia | by vm_compute]).
Qed.

Lemma case_B_well_formed : well_formed case_B.
Proof.
  unfold well_formed, case_B; cbn [tc_n tc_constraints length].
  split; [lia|]. split; [by vm_compute|]. split; [by vm_compute|].
  intros k Hk.
  repeat (apply elem_of_cons in Hk as [->|Hk]); [.. | by apply elem_of_nil in Hk];
    cbn [fst snd]; (split_and!; first [lia | by vm_compute]).
Qed.

Lemma main_correct_witness :
  ∃ lines, main (Z.of_nat (length [case_A; case_B])
                   :: flat_map encode_case [case_A; case_B] ++ []) = Ok lines ∧
           Forall2 right_line lines [case_A; case_B].
Proof.
  apply (main_correct [case_A; case_B] []).
  - apply Forall_cons_2; [apply case_A_well_formed|].
    apply Forall_cons_2; [apply case_B_well_formed | apply Forall_nil_2].
  - by vm_compute.
Defined.

(* ------------------------------------------------------------------ *)
(** ** Further properties of the structure *)

Lemma Inv_same_roots g cs s s' k :
  Inv g cs s → Inv g cs s' → length (parent s') = length (parent s) →
  is_root s k → is_root s' k.
Proof.
  intros HI HI' Hlen Hk.
  assert (k < length (parent s))%nat as Hlt by (by apply lookup_lt_Some in Hk).
  rewrite <- (I_root _ _ _ HI k Hk). apply (Inv_rep_root HI'). lia.
Qed.

Lemma Inv_count_roots g cs s s' :
  Inv g cs s → Inv g cs s' → length (parent s') = length (parent s) →
  count_roots s' = count_roots s.
Proof.
  intros HI HI' Hlen. unfold count_roots. rewrite Hlen. apply sumn_ext.
  intros k Hk. unfold root_weight.
  destruct (decide (parent s !! k = Some k)) as [H|H];
    destruct (decide (parent s' !! k = Some k)) as [H'|H']; try done.
  - destruct H'. by apply (Inv_same_roots g cs s s').
  - destruct H. by apply (Inv_same_roots g cs s' s).
Qed.

(** On any state whatever, [find] on a root returns it and changes
    nothing. *)
Lemma find_root s i : is_root s i → find s i = Ok (i, s).
Proof.
  intros Hp. unfold find.
  destruct (length (parent s)) as [|fuel] eqn:E.
  { apply lookup_lt_Some in Hp. lia. }
  cbn [find_fuel]. rewrite (vget_Ok _ _ _ Hp), bind_Ok. by rewrite decide_True.
Qed.

(** X1. The constructor, for an [int] [n]: [n = INT_MAX] overflows in
    [n + 1], [n < -1] asks for a size no vector has, and otherwise both
    vectors get [n + 1] slots in which every element is a root with offset
    [0], so that [find] returns the element itself and changes nothing. *)
Theorem DSU_new_fresh n :
  is_int n →
  (n = int_max ∧ DSU_new n = Err Overflow) ∨
  (n < -1 ∧ DSU_new n = Err BadAlloc) ∨
  (-1 <= n < int_max ∧
   ∃ s, DSU_new n = Ok s ∧
        Z.of_nat (length (parent s)) = n + 1 ∧
        Z.of_nat (length (diff s)) = n + 1 ∧
        ∀ i, 0 <= Z.of_nat i <= n →
          is_root s i ∧ diff s !! i = Some 0 ∧ find s i = Ok (i, s)).
Proof.
  intros Hn. unfold is_int, int_min, int_max in Hn.
  destruct (decide (n = int_max)) as [->|Hmax].
  { left. split; [done|]. by vm_compute. }
  unfold int_max in Hmax. right.
  unfold DSU_new, int_add.
  rewrite int_check_Ok, bind_Ok by (unfold is_int, int_min, int_max; lia).
  destruct (n + 1 <? 0) eqn:E.
  { apply Z.ltb_lt in E. left. split; [lia | done]. }
  apply Z.ltb_ge in E. right. split; [unfold int_max; lia|].
  eexists. split; [reflexivity|]. cbn [parent diff].
  rewrite length_seq, length_replicate. split_and!; [lia | lia |].
  intros i Hi. assert (i < Z.to_nat (n + 1))%nat as Hlt by lia.
  assert (seq 0 (Z.to_nat (n + 1)) !! i = Some i) as Hp by by rewrite lookup_seq_lt.
  split_and!; [done | by rewrite lookup_replicate_2 | by apply find_root].
Qed.

Lemma DSU_new_fresh_witness :
  (3 = int_max ∧ DSU_new 3 = Err Overflow) ∨
  (3 < -1 ∧ DSU_new 3 = Err BadAlloc) ∨
  (-1 <= 3 < int_max ∧
   ∃ s, DSU_new 3 = Ok s ∧
        Z.of_nat (length (parent s)) = 3 + 1 ∧
        Z.of_nat (length (diff s)) = 3 + 1 ∧
        ∀ i, 0 <= Z.of_nat i <= 3 →
          is_root s i ∧ diff s !! i = Some 0 ∧ find s i = Ok (i, s)).
Proof. apply (DSU_new_fresh 3). by vm_compute. Defined.

(** X2. In every reachable state both vectors still have their [n + 1]
    slots, a size that fits an [int], and every entry of [parent] is a
    subscript of the vectors: no call of [find] or [unite] resizes a
    vector or stores an element that is not one. *)
Theorem vectors_keep_shape n s cs :
  reach n s cs →
  Z.of_nat (length (parent s)) = n + 1 ∧
  Z.of_nat (length (diff s)) = n + 1 ∧
  n + 1 <= int_max ∧
  ∀ i p, parent s !! i = Some p → 0 <= Z.of_nat p <= n.
Proof.
  intros Hr. destruct (reach_Inv n s cs Hr) as (g & HI & Hlen).
  pose proof (I_size _ _ _ HI). pose proof (I_len _ _ _ HI).
  split_and!; [done | lia | lia |].
  intros i p Hp. destruct (Inv_parent HI i p Hp) as (Hlt & _). lia.
Qed.

Lemma vectors_keep_shape_witness :
  Z.of_nat (length (parent ex_flat)) = 3 + 1 ∧
  Z.of_nat (length (diff ex_flat)) = 3 + 1 ∧
  3 + 1 <= int_max ∧
  ∀ i p, parent ex_flat !! i = Some p → 0 <= Z.of_nat p <= 3.
Proof. exact (vectors_keep_shape 3 ex_flat _ ex_flat_reach). Defined.

(** X3. Path compression changes the representation only: after
    [find(i)] every element still has the root and the offset to the root
    that it had before the call. *)
Theorem find_preserves_offsets n s cs i r s' :
  reach n s cs → 0 <= Z.of_nat i <= n → find s i = Ok (r, s') →
  ∀ k, 0 <= Z.of_nat k <= n →
    root_sum s' k = root_sum s k ∧ is_Some (root_sum s k).
Proof.
  intros Hr Hi Hf k Hk. pose proof (reach_lt n s cs i Hr Hi) as Hlt.
  pose proof (reach_lt n s cs k Hr Hk) as Hklt.
  destruct (reach_Inv n s cs Hr) as (g & HI & _).
  destruct (find_Inv g cs s i HI Hlt) as (s1 & Hf1 & HI1 & Hlen1 & _).
  rewrite Hf1 in Hf. injection Hf as <- <-.
  rewrite (root_sum_Inv g cs s1), (root_sum_Inv g cs s) by (done || lia).
  split; [done | by eexists].
Qed.

Lemma find_preserves_offsets_witness :
  root_sum ex_flat 2 = root_sum ex_chain 2 ∧ is_Some (root_sum ex_chain 2).
Proof.
  apply (find_preserves_offsets 3 ex_chain _ 1 3 ex_flat ex_chain_reach);
    [lia | reflexivity | lia].
Defined.

(** X4. [find(i)] writes only to the nodes met on the way up from [i]:
    every other node keeps its parent and its stored offset, the vectors
    keep their length, and the roots before the call are the roots after
    it. *)
Theorem find_frame n s cs i r s' :
  reach n s cs → 0 <= Z.of_nat i <= n → find s i = Ok (r, s') →
  length (parent s') = length (parent s) ∧
  length (diff s') = length (diff s) ∧
  (∀ k, ¬ on_path s i k →
        parent s' !! k = parent s !! k ∧ diff s' !! k = diff s !! k) ∧
  (∀ k, is_root s k ↔ is_root s' k).
Proof.
  intros Hr Hi Hf. pose proof (reach_lt n s cs i Hr Hi) as Hlt.
  destruct (reach_Inv n s cs Hr) as (g & HI & _).
  destruct (find_Inv g cs s i HI Hlt) as (s1 & Hf1 & HI1 & Hlen1 & _ & Hoff & _).
  rewrite Hf1 in Hf. injection Hf as <- <-.
  split_and!; [done | | done |].
  - by rewrite (I_len _ _ _ HI1), (I_len _ _ _ HI).
  - intros k. split; intros Hk.
    + by apply (Inv_same_roots g cs s s1).
    + by apply (Inv_same_roots g cs s1 s).
Qed.

Lemma find_frame_witness :
  length (parent ex_flat) = length (parent ex_chain) ∧
  length (diff ex_flat) = length (diff ex_chain) ∧
  (∀ k, ¬ on_path ex_chain 1 k →
        parent ex_flat !! k = parent ex_chain !! k ∧
        diff ex_flat !! k = diff ex_chain !! k) ∧
  (∀ k, is_root ex_chain k ↔ is_root ex_flat k).
Proof.
  apply (find_frame 3 ex_chain _ 1 3 ex_flat ex_chain_reach); [lia | reflexivity].
Defined.

(** X5. On a reachable state [unite(i, j, c)] returns [true] exactly when
    [x_i - x_j = c] can be satisfied together with all the constraints
    accepted before; it never fails to return. *)
Theorem unite_decides n s cs i j c :
  reach n s cs → 0 <= Z.of_nat i <= n → 0 <= Z.of_nat j <= n → is_int c →
  ∃ b s', unite s i j c = Ok (b, s') ∧
          (b = true ↔ satisfiable ((i, j, c) :: cs)).
Proof.
  intros Hr Hi Hj Hc.
  pose proof (reach_lt n s cs i Hr Hi) as Hilt.
  pose proof (reach_lt n s cs j Hr Hj) as Hjlt.
  destruct (reach_Inv n s cs Hr) as (g & HI & _).
  destruct (unite_Inv g cs s i j c HI Hilt Hjlt Hc)
    as (s1 & s2 & _ & _ & HI2 & Hlen2 & _ & _ & _ & Hu).
  rewrite Hu. case_decide as Hne.
  - do 2 eexists. split; [reflexivity|]. split; [intros _ | done].
    eexists. eapply Inv_sat. apply (Inv_link HI2); [lia | lia | done | done].
  - do 2 eexists. split; [reflexivity|]. rewrite bool_decide_eq_true. split.
    + intros Hd. exists (pot g). eapply Inv_sat.
      apply (Inv_accept g cs s2); [done | lia | lia | done | done].
    + intros (y & Hy). apply sat_cons in Hy as [Hk Hy].
      unfold holds in Hk; cbn [fst snd] in Hk.
      pose proof (Inv_sat_diff g cs s2 y i j HI2 ltac:(lia) ltac:(lia) Hne Hy). lia.
Qed.

Lemma unite_decides_witness :
  ∃ b s', unite ex_chain 1 3 9 = Ok (b, s') ∧
          (b = true ↔
           satisfiable [(1%nat, 3%nat, 9); (2%nat, 3%nat, 3); (1%nat, 2%nat, 5)]).
Proof.
  apply (unite_decides 3 ex_chain _ 1 3 9 ex_chain_reach); [lia | lia | by vm_compute].
Defined.

(** X6. What a linking [unite] does to the elements: when [i] and [j]
    have distinct roots [ri] and [rj] and offsets [di] and [dj] to them,
    every element of the tree of [ri] gets the root [rj] and its offset
    grows by [c + dj - di]; every other element keeps its root and its
    offset. *)
Theorem unite_link_offsets n s cs i j c ri rj di dj :
  reach n s cs → 0 <= Z.of_nat i <= n → 0 <= Z.of_nat j <= n → is_int c →
  root_sum s i = Some (ri, di) → root_sum s j = Some (rj, dj) → ri ≠ rj →
  ∃ s', unite s i j c = Ok (true, s') ∧
    ∀ k rk dk, 0 <= Z.of_nat k <= n → root_sum s k = Some (rk, dk) →
      root_sum s' k =
        Some (if decide (rk = ri) then (rj, dk + (c + dj - di)) else (rk, dk)).
Proof.
  intros Hr Hi Hj Hc Hsi Hsj Hne.
  pose proof (reach_lt n s cs i Hr Hi) as Hilt.
  pose proof (reach_lt n s cs j Hr Hj) as Hjlt.
  destruct (reach_Inv n s cs Hr) as (g & HI & Hlen).
  rewrite (root_sum_Inv g cs s i HI Hilt) in Hsi. injection Hsi as <- <-.
  rewrite (root_sum_Inv g cs s j HI Hjlt) in Hsj. injection Hsj as <- <-.
  destruct (unite_Inv g cs s i j c HI Hilt Hjlt Hc)
    as (s1 & s2 & _ & _ & HI2 & Hlen2 & _ & _ & _ & Hu).
  rewrite decide_True in Hu by done.
  eexists. split; [exact Hu|]. intros k rk dk Hk Hsk.
  assert (k < length (parent s))%nat as Hklt by lia.
  rewrite (root_sum_Inv g cs s k HI Hklt) in Hsk. injection Hsk as <- <-.
  pose proof (Inv_link HI2 i j c ltac:(lia) ltac:(lia) Hc Hne) as HI3.
  rewrite (root_sum_Inv _ _ _ k HI3) by (rewrite length_link_state; lia).
  pose proof (Inv_rep_idem HI j Hjlt) as Irj.
  pose proof (Inv_rep_idem HI k Hklt) as Irk.
  cbn [ghost_link rep pot].
  destruct (decide (rep g k = rep g i)) as [E|E].
  - rewrite Irj. rewrite !(decide_False (P := rep g j = rep g i)) by congruence.
    rewrite E. do 2 f_equal. lia.
  - rewrite Irk. by rewrite !(decide_False (P := rep g k = rep g i)) by done.
Qed.

Lemma unite_link_offsets_witness :
  ∃ s', unite ex_pair 1 3 7 = Ok (true, s') ∧
    ∀ k rk dk, 0 <= Z.of_nat k <= 3 → root_sum ex_pair k = Some (rk, dk) →
      root_sum s' k =
        Some (if decide (rk = 2%nat) then (3%nat, dk + (7 + 0 - 5)) else (rk, dk)).
Proof.
  apply (unite_link_offsets 3 ex_pair _ 1 3 7 2 3 5 0 ex_pair_reach);
    first [lia | by vm_compute | reflexivity].
Defined.

(** X7. A [unite(i, j, c)] on two elements of one tree, with offsets [di]
    and [dj] to the root, returns [true] exactly when [di - dj = c] and,
    whatever it returns, leaves every element with the root and the
    offset it had. *)
Theorem unite_same_tree_keeps_offsets n s cs i j c r di dj :
  reach n s cs → 0 <= Z.of_nat i <= n → 0 <= Z.of_nat j <= n → is_int c →
  root_sum s i = Some (r, di) → root_sum s j = Some (r, dj) →
  ∃ s', unite s i j c = Ok (bool_decide (di - dj = c), s') ∧
    ∀ k, 0 <= Z.of_nat k <= n → root_sum s' k = root_sum s k.
Proof.
  intros Hr Hi Hj Hc Hsi Hsj.
  pose proof (reach_lt n s cs i Hr Hi) as Hilt.
  pose proof (reach_lt n s cs j Hr Hj) as Hjlt.
  destruct (reach_Inv n s cs Hr) as (g & HI & Hlen).
  rewrite (root_sum_Inv g cs s i HI Hilt) in Hsi. injection Hsi as Hri <-.
  rewrite (root_sum_Inv g cs s j HI Hjlt) in Hsj. injection Hsj as Hrj <-.
  destruct (unite_Inv g cs s i j c HI Hilt Hjlt Hc)
    as (s1 & s2 & _ & _ & HI2 & Hlen2 & _ & _ & _ & Hu).
  rewrite decide_False in Hu by (intros H; apply H; congruence).
  exists s2. split.
  - rewrite Hu. do 2 f_equal. apply bool_decide_ext. rewrite Hri, Hrj. lia.
  - intros k Hk.
    by rewrite (root_sum_Inv g cs s2), (root_sum_Inv g cs s) by (done || lia).
Qed.

Lemma unite_same_tree_keeps_offsets_witness :
  ∃ s', unite ex_chain 1 3 9 = Ok (bool_decide (8 - 0 = 9), s') ∧
    ∀ k, 0 <= Z.of_nat k <= 3 → root_sum s' k = root_sum ex_chain k.
Proof.
  apply (unite_same_tree_keeps_offsets 3 ex_chain _ 1 3 9 3 8 0 ex_chain_reach);
    first [lia | by vm_compute | reflexivity].
Defined.

(** X8. The trees are exactly the sets of elements whose differences the
    accepted constraints determine: two elements have the same root if
    and only if all solutions of the accepted constraints agree on
    [x_i - x_j]. *)
Theorem same_root_iff_determined n s cs i j :
  reach n s cs → 0 <= Z.of_nat i <= n → 0 <= Z.of_nat j <= n →
  root_of s i = root_of s j ↔
  ∀ y y', sat y cs → sat y' cs → y i - y j = y' i - y' j.
Proof.
  intros Hr Hi Hj.
  pose proof (reach_lt n s cs i Hr Hi) as Hilt.
  pose proof (reach_lt n s cs j Hr Hj) as Hjlt.
  destruct (reach_Inv n s cs Hr) as (g & HI & _).
  rewrite (root_of_Inv g cs s i), (root_of_Inv g cs s j) by done. split.
  - intros [= Hij] y y' Hy Hy'.
    rewrite (Inv_sat_diff g cs s y i j), (Inv_sat_diff g cs s y' i j); done.
  - intros Hdet. destruct (decide (rep g i = rep g j)) as [->|Hne]; [done|].
    exfalso.
    pose (y' := fun k => if decide (rep g k = rep g i) then pot g k + 1 else pot g k).
    assert (sat y' cs) as Hy'.
    { intros [[a b] d] Hin. unfold holds, y'; cbn [fst snd].
      destruct (I_cs _ _ _ HI a b d Hin) as (_ & _ & Hab & Hd).
      rewrite <- Hab. case_decide; lia. }
    specialize (Hdet (pot g) y' (Inv_sat g cs s HI) Hy'). unfold y' in Hdet.
    rewrite decide_True in Hdet by done.
    rewrite decide_False in Hdet by congruence. lia.
Qed.

Lemma same_root_iff_determined_witness :
  root_of ex_pair 1 = root_of ex_pair 3 ↔
  ∀ y y', sat y [(1%nat, 2%nat, 5)] → sat y' [(1%nat, 2%nat, 5)] →
          y 1%nat - y 3%nat = y' 1%nat - y' 3%nat.
Proof. apply (same_root_iff_determined 3 ex_pair _ 1 3 ex_pair_reach); lia. Defined.

(** X9. An accepted constraint is remembered: once [unite] has returned
    [true] for [(a, b, d)], a later [unite(a, b, c)] returns [true]
    exactly for [c = d], and a later [unite(b, a, c)] exactly for
    [c = -d]. *)
Theorem accepted_is_remembered n s cs a b d c :
  reach n s cs → (a, b, d) ∈ cs → is_int c →
  ∃ s1 s2, unite s a b c = Ok (bool_decide (c = d), s1) ∧
           unite s b a c = Ok (bool_decide (c = - d), s2).
Proof.
  intros Hr Hin Hc. destruct (reach_Inv n s cs Hr) as (g & HI & _).
  destruct (I_cs _ _ _ HI a b d Hin) as (Ha & Hb & Hab & Hd).
  destruct (unite_Inv g cs s a b c HI Ha Hb Hc)
    as (_ & s1 & _ & _ & _ & _ & _ & _ & _ & Hu1).
  destruct (unite_Inv g cs s b a c HI Hb Ha Hc)
    as (_ & s2 & _ & _ & _ & _ & _ & _ & _ & Hu2).
  rewrite decide_False in Hu1 by (intros H; by apply H).
  rewrite decide_False in Hu2 by (intros H; by apply H).
  exists s1, s2. rewrite Hu1, Hu2. split; do 2 f_equal; apply bool_decide_ext; lia.
Qed.

Lemma accepted_is_remembered_witness :
  ∃ s1 s2, unite ex_chain 1 2 4 = Ok (bool_decide (4 = 5), s1) ∧
           unite ex_chain 2 1 4 = Ok (bool_decide (4 = - 5), s2).
Proof.
  apply (accepted_is_remembered 3 ex_chain _ 1 2 5 4 ex_chain_reach);
    [ by apply elem_of_cons; right; apply elem_of_cons; left | by vm_compute ].
Defined.

(** X10. A constraint of an element with itself: [unite(i, i, c)]
    returns [true] exactly for [c = 0], and leaves the state that a plain
    [find(i)] leaves. *)
Theorem unite_self n s cs i c :
  reach n s cs → 0 <= Z.of_nat i <= n → is_int c →
  ∃ r s1, find s i = Ok (r, s1) ∧ unite s i i c = Ok (bool_decide (c = 0), s1).
Proof.
  intros Hr Hi Hc. pose proof (reach_lt n s cs i Hr Hi) as Hilt.
  destruct (reach_Inv n s cs Hr) as (g & HI & _).
  destruct (unite_Inv g cs s i i c HI Hilt Hilt Hc)
    as (s1 & s2 & Hf1 & Hf2 & _ & _ & _ & _ & _ & Hu).
  destruct (find_Inv g cs s i HI Hilt) as (s1' & Hf1' & HI1 & Hlen1 & Hon & _).
  rewrite Hf1 in Hf1'. injection Hf1' as <-.
  destruct (find_Inv g cs s1 i HI1 ltac:(lia)) as (s2' & Hf2' & _ & _ & _ & _ & _ & Hsame).
  rewrite Hf2 in Hf2'. injection Hf2' as <-.
  rewrite Hsame in Hu by (apply Hon; constructor).
  rewrite decide_False in Hu by (intros H; by apply H).
  exists (rep g i), s1. split; [done|]. rewrite Hu.
  do 2 f_equal. apply bool_decide_ext. lia.
Qed.

Lemma unite_self_witness :
  ∃ r s1, find ex_chain 1 = Ok (r, s1) ∧
          unite ex_chain 1 1 2 = Ok (bool_decide (2 = 0), s1).
Proof. apply (unite_self 3 ex_chain _ 1 2 ex_chain_reach); [lia | by vm_compute]. Defined.

(** X11. The number of trees: [find] keeps it, a [unite] of two elements
    of one tree keeps it, and a [unite] of elements of two trees lowers
    it by exactly one. *)
Theorem unite_counts_trees n s cs i j c b s' :
  reach n s cs → 0 <= Z.of_nat i <= n → 0 <= Z.of_nat j <= n → is_int c →
  unite s i j c = Ok (b, s') →
  (∀ r s1, find s i = Ok (r, s1) → count_roots s1 = count_roots s) ∧
  (root_of s i = root_of s j → count_roots s' = count_roots s) ∧
  (root_of s i ≠ root_of s j → S (count_roots s') = count_roots s).
Proof.
  intros Hr Hi Hj Hc Hu.
  pose proof (reach_lt n s cs i Hr Hi) as Hilt.
  pose proof (reach_lt n s cs j Hr Hj) as Hjlt.
  destruct (reach_Inv n s cs Hr) as (g & HI & _).
  rewrite (root_of_Inv g cs s i), (root_of_Inv g cs s j) by done.
  destruct (unite_Inv g cs s i j c HI Hilt Hjlt Hc)
    as (s1 & s2 & Hf1 & _ & HI2 & Hlen2 & _ & _ & _ & Hu').
  rewrite Hu' in Hu.
  pose proof (Inv_count_roots g cs s s2 HI HI2 Hlen2) as Hc2.
  split_and!.
  - intros r s1' Hf. rewrite Hf1 in Hf. injection Hf as <- <-.
    destruct (find_Inv g cs s i HI Hilt) as (s1' & Hf1' & HI1 & Hlen1 & _).
    rewrite Hf1 in Hf1'. injection Hf1' as <-.
    by apply (Inv_count_roots g cs).
  - intros [= Hij]. rewrite decide_False in Hu by (intros H; by apply H).
    by injection Hu as <- <-.
  - intros Hne. assert (rep g i ≠ rep g j) as Hne' by congruence.
    rewrite decide_True in Hu by done. injection Hu as <- <-.
    pose proof (link_sum HI2 i j c ltac:(lia) ltac:(lia) Hne'
                  (fun _ => 1%nat) (fun _ => 1%nat) ltac:(done)) as Hsum.
    cbv beta in Hsum. unfold count_roots. rewrite length_link_state.
    unfold count_roots in Hc2. lia.
Qed.

Lemma unite_counts_trees_witness :
  (∀ r s1, find ex_pair 1 = Ok (r, s1) → count_roots s1 = count_roots ex_pair) ∧
  (root_of ex_pair 1 = root_of ex_pair 3 →
   count_roots {| parent := [0; 2; 3; 3]%nat; diff := [0; 5; 2; 0] |} = count_roots ex_pair) ∧
  (root_of ex_pair 1 ≠ root_of ex_pair 3 →
   S (count_roots {| parent := [0; 2; 3; 3]%nat; diff := [0; 5; 2; 0] |}) = count_roots ex_pair).
Proof.
  apply (unite_counts_trees 3 ex_pair _ 1 3 7 true _ ex_pair_reach);
    first [lia | by vm_compute | reflexivity].
Defined.

Lemma Inv_offset_sat g cs s : Inv g cs s → sat (offset_of s) cs.
Proof.
  intros HI [[a b] d] Hin.
  destruct (I_cs _ _ _ HI a b d Hin) as (Ha & Hb & Hab & Hd).
  unfold holds, offset_of; cbn [fst snd].
  rewrite (root_sum_Inv g cs s a), (root_sum_Inv g cs s b) by done.
  rewrite Hab. lia.
Qed.

(** X12. The structure holds a solution: in every reachable state the
    offsets of the elements to their roots, taken as the values of the
    unknowns, satisfy every accepted constraint. *)
Theorem offsets_solve_constraints n s cs :
  reach n s cs → sat (offset_of s) cs.
Proof.
  intros Hr. destruct (reach_Inv n s cs Hr) as (g & HI & _).
  by apply (Inv_offset_sat g).
Qed.

Lemma offsets_solve_constraints_witness :
  offset_of ex_chain 1 = 8 ∧
  sat (offset_of ex_chain) [(2%nat, 3%nat, 3); (1%nat, 2%nat, 5)].
Proof.
  split; [reflexivity|].
  exact (offsets_solve_constraints 3 ex_chain _ ex_chain_reach).
Defined.

(** X13. The first constraint between two distinct elements of a fresh
    structure is always accepted and stored as it is: [unite(i, j, c)]
    returns [true] with [parent[i] = j] and [diff[i] = c] as the only
    stores. *)
Theorem unite_on_fresh n s i j c :
  DSU_new n = Ok s → 0 <= Z.of_nat i <= n → 0 <= Z.of_nat j <= n → i ≠ j →
  is_int c →
  unite s i j c =
    Ok (true, {| parent := <[i := j]> (parent s); diff := <[i := c]> (diff s) |}).
Proof.
  intros Hnew Hi Hj Hij Hc. apply DSU_new_Ok in Hnew as [Hn ->].
  assert (i < Z.to_nat (n + 1))%nat as Hilt by lia.
  assert (j < Z.to_nat (n + 1))%nat as Hjlt by lia.
  set (s := {| parent := seq 0 (Z.to_nat (n + 1));
               diff := replicate (Z.to_nat (n + 1)) 0 |}).
  assert (is_root s i) as Ri by (unfold is_root, s; cbn [parent]; by rewrite lookup_seq_lt).
  assert (is_root s j) as Rj by (unfold is_root, s; cbn [parent]; by rewrite lookup_seq_lt).
  assert (diff s !! i = Some 0) as Di by (unfold s; cbn [diff]; by rewrite lookup_replicate_2).
  assert (diff s !! j = Some 0) as Dj by (unfold s; cbn [diff]; by rewrite lookup_replicate_2).
  assert (length (parent s) = Z.to_nat (n + 1)) as Lp by (unfold s; cbn [parent]; by rewrite length_seq).
  assert (length (diff s) = Z.to_nat (n + 1)) as Ld
    by (unfold s; cbn [diff]; by rewrite length_replicate).
  unfold unite. rewrite (find_root s i Ri), bind_Ok. cbn beta iota.
  rewrite (find_root s j Rj), bind_Ok. cbn beta iota.
  rewrite decide_True by done.
  rewrite vset_Ok, bind_Ok by lia. cbn zeta. rewrite !diff_set_parent.
  rewrite (vget_Ok _ _ _ Dj), bind_Ok, (vget_Ok _ _ _ Di), bind_Ok.
  unfold ll_sub, ll_add.
  rewrite ll_check_Ok, bind_Ok by (by vm_compute).
  assert (is_ll (0 - 0 + c)) as Hll.
  { unfold is_int, int_min, int_max in Hc. unfold is_ll, ll_min, ll_max. lia. }
  rewrite ll_check_Ok, bind_Ok by done.
  rewrite vset_Ok, bind_Ok by lia.
  unfold set_diff, set_parent. cbn [parent diff].
  by replace (0 - 0 + c) with c by lia.
Qed.

Lemma unite_on_fresh_witness :
  unite {| parent := seq 0 4; diff := replicate 4 0 |} 1 2 5 =
    Ok (true, {| parent := <[1%nat := 2%nat]> (seq 0 4);
                 diff := <[1%nat := 5]> (replicate 4 0) |}).
Proof.
  apply (unite_on_fresh 3 {| parent := seq 0 4; diff := replicate 4 0 |} 1 2 5);
    first [lia | by vm_compute | reflexivity].
Defined.

(* ------------------------------------------------------------------ *)
(** ** Further properties of the driver *)

(** X14. A test case whose [m] is zero or negative has no constraint
    read: [solve] takes [n] and [m] off the input, leaves the rest, and
    prints [YES]. *)
Theorem solve_no_constraints n m rest :
  is_int n → -1 <= n < int_max → is_int m → m <= 0 →
  solve (n :: m :: rest) = Ok ("YES"%string, rest).
Proof.
  intros Hn Hn' Hm Hm0. unfold solve, solve_run.
  rewrite read_int_Ok, bind_Ok by done. cbn beta iota.
  rewrite read_int_Ok, bind_Ok by done. cbn beta iota.
  unfold DSU_new, int_add.
  rewrite int_check_Ok, bind_Ok by (unfold is_int, int_min, int_max in *; lia).
  destruct (n + 1 <? 0) eqn:E; [apply Z.ltb_lt in E; lia|].
  rewrite bind_Ok. replace (Z.to_nat m) with 0%nat by lia. reflexivity.
Qed.

Lemma solve_no_constraints_witness :
  solve [4; -2; 7; 7] = Ok ("YES"%string, [7; 7]).
Proof. apply (solve_no_constraints 4 (-2) [7; 7]); by vm_compute. Defined.

Lemma right_line_unique line line' tc :
  right_line line tc → right_line line' tc → line = line'.
Proof. intros [[-> H]|[-> H]] [[-> H']|[-> H']]; done. Qed.

(** X15. The verdict depends on the set of constraints only: two
    well-formed test cases with the same constraints, in any order and
    with any repetitions, get the same line. *)
Theorem verdict_of_constraint_set tc tc' rest rest' :
  well_formed tc → well_formed tc' →
  (∀ k, k ∈ tc_constraints tc ↔ k ∈ tc_constraints tc') →
  ∃ line, solve (encode_case tc ++ rest) = Ok (line, rest) ∧
          solve (encode_case tc' ++ rest') = Ok (line, rest').
Proof.
  intros Hwf Hwf' Hsame.
  destruct (solve_correct tc rest Hwf) as (line & Hs & Hl).
  destruct (solve_correct tc' rest' Hwf') as (line' & Hs' & Hl').
  exists line. split; [done|]. rewrite Hs'. do 2 f_equal.
  assert (consistent (tc_constraints tc) ↔ consistent (tc_constraints tc')) as Hiff.
  { split; intros (x & Hx); exists x; intros k Hk; apply Hx; by apply Hsame. }
  destruct Hl as [[-> H]|[-> H]], Hl' as [[-> H']|[-> H']]; try done; tauto.
Qed.

Lemma verdict_of_constraint_set_witness :
  ∃ line,
    solve (encode_case case_B ++ [])
      = Ok (line, []) ∧
    solve (encode_case {| tc_n := 3;
                          tc_constraints := [(1, 3, 9); (1, 2, 5); (2, 3, 3); (1, 2, 5)] |}
             ++ [11])
      = Ok (line, [11]).
Proof.
  apply (verdict_of_constraint_set case_B
           {| tc_n := 3; tc_constraints := [(1, 3, 9); (1, 2, 5); (2, 3, 3); (1, 2, 5)] |}
           [] [11]).
  - apply case_B_well_formed.
  - unfold well_formed; cbn [tc_n tc_constraints length].
    split; [lia|]. split; [by vm_compute|]. split; [by vm_compute|].
    intros k Hk.
    repeat (apply elem_of_cons in Hk as [->|Hk]); [.. | by apply elem_of_nil in Hk];
      cbn [fst snd]; (split_and!; first [lia | by vm_compute]).
  - intros k. unfold case_B; cbn [tc_constraints].
    rewrite !elem_of_cons, !elem_of_nil. tauto.
Defined.

(** X16. Dropping constraints never turns a [YES] into a [NO]: if a
    well-formed test case gets [YES], so does every well-formed test case
    whose constraints are among its constraints. *)
Theorem verdict_monotone tc tc' rest rest' :
  well_formed tc → well_formed tc' →
  (∀ k, k ∈ tc_constraints tc' → k ∈ tc_constraints tc) →
  solve (encode_case tc ++ rest) = Ok ("YES"%string, rest) →
  solve (encode_case tc' ++ rest') = Ok ("YES"%string, rest').
Proof.
  intros Hwf Hwf' Hsub Hyes.
  destruct (solve_correct tc rest Hwf) as (line & Hs & Hl).
  destruct (solve_correct tc' rest' Hwf') as (line' & Hs' & Hl').
  rewrite Hs in Hyes. injection Hyes as ->.
  rewrite Hs'. do 2 f_equal.
  destruct Hl as [[_ (x & Hx)]|[? _]]; [|done].
  destruct Hl' as [[-> _]|[_ H']]; [done|].
  destruct H'. exists x. intros k Hk. apply Hx. by apply Hsub.
Qed.

Lemma verdict_monotone_witness :
  solve (encode_case {| tc_n := 3; tc_constraints := [(1, 3, 8); (1, 2, 5)] |} ++ [11])
    = Ok ("YES"%string, [11]).
Proof.
  apply (verdict_monotone case_A
           {| tc_n := 3; tc_constraints := [(1, 3, 8); (1, 2, 5)] |} [] [11]).
  - apply case_A_well_formed.
  - unfold well_formed; cbn [tc_n tc_constraints length].
    split; [lia|]. split; [by vm_compute|]. split; [by vm_compute|].
    intros k Hk.
    repeat (apply elem_of_cons in Hk as [->|Hk]); [.. | by apply elem_of_nil in Hk];
      cbn [fst snd]; (split_and!; first [lia | by vm_compute]).
  - intros k. unfold case_A; cbn [tc_constraints].
    rewrite !elem_of_cons, !elem_of_nil. tauto.
  - by vm_compute.
Defined.

Lemma main_unfold t inp :
  Z.of_nat t <= int_max → main (Z.of_nat t :: inp) = main_loop t inp [].
Proof.
  intros Ht. unfold main.
  rewrite read_int_Ok, bind_Ok by (unfold is_int, int_min, int_max in *; lia).
  cbn beta iota.
  destruct (Z.of_nat t <? 0) eqn:E; [apply Z.ltb_lt in E; lia|].
  by rewrite Nat2Z.id.
Qed.

Lemma right_lines_unique lines lines' tcs :
  Forall2 right_line lines tcs → Forall2 right_line lines' tcs → lines = lines'.
Proof.
  intros H. revert lines'. induction H as [|line tc lines tcs Hl _ IH]; intros lines' H'.
  - by inversion H'.
  - inversion H' as [|line' ? lines'' ? Hl' H'']; subst.
    f_equal; [by eapply right_line_unique | by apply IH].
Qed.

(** X17. Test cases do not influence one another: the lines printed for
    a sequence of well-formed test cases are the lines printed for its
    first part followed by the lines printed for the rest, each run on
    its own. *)
Theorem test_cases_are_independent tcs1 tcs2 rest1 rest2 rest :
  Forall well_formed tcs1 → Forall well_formed tcs2 →
  Z.of_nat (length (tcs1 ++ tcs2)) <= int_max →
  ∃ l1 l2,
    main (Z.of_nat (length tcs1) :: flat_map encode_case tcs1 ++ rest1) = Ok l1 ∧
    main (Z.of_nat (length tcs2) :: flat_map encode_case tcs2 ++ rest2) = Ok l2 ∧
    main (Z.of_nat (length (tcs1 ++ tcs2)) :: flat_map encode_case (tcs1 ++ tcs2) ++ rest)
      = Ok (l1 ++ l2).
Proof.
  intros Hwf1 Hwf2 Hlen. rewrite length_app in Hlen.
  destruct (main_loop_correct tcs1 rest1 [] Hwf1) as (l1 & H1 & F1).
  destruct (main_loop_correct tcs2 rest2 [] Hwf2) as (l2 & H2 & F2).
  destruct (main_loop_correct (tcs1 ++ tcs2) rest [] (Forall_app_2 _ _ _ Hwf1 Hwf2))
    as (l & H & F).
  cbn [app] in H1, H2, H.
  exists l1, l2. rewrite !main_unfold by (rewrite ?length_app; lia).
  split_and!; [done | done |]. rewrite H. f_equal.
  apply (right_lines_unique _ _ (tcs1 ++ tcs2)); [done | by apply Forall2_app].
Qed.

Lemma test_cases_are_independent_witness :
  ∃ l1 l2,
    main (Z.of_nat (length [case_A]) :: flat_map encode_case [case_A] ++ []) = Ok l1 ∧
    main (Z.of_nat (length [case_B]) :: flat_map encode_case [case_B] ++ [5]) = Ok l2 ∧
    main (Z.of_nat (length ([case_A] ++ [case_B]))
            :: flat_map encode_case ([case_A] ++ [case_B]) ++ []) = Ok (l1 ++ l2).
Proof.
  apply (test_cases_are_independent [case_A] [case_B] [] [5] []).
  - apply Forall_cons_2; [apply case_A_well_formed | apply Forall_nil_2].
  - apply Forall_cons_2; [apply case_B_well_formed | apply Forall_nil_2].
  - by vm_compute.
Defined.

(** The loop of [solve] from a reachable structure: as long as no
    contradiction shows, every iteration calls [unite] and the structure
    stays reachable, with the constraints read so far accepted. *)
Lemma solve_loop_reach n : ∀ cs st acc rest,
  reach n (ls_dsu st) acc → ls_consistent st = true →
  ls_input st = encode_constraints cs ++ rest →
  (∀ k, k ∈ cs → 0 <= k.1.1 <= n ∧ 0 <= k.1.2 <= n ∧ is_int k.2) →
  is_int n →
  ∃ st', solve_loop (length cs) st = Ok st' ∧ ls_input st' = rest ∧
         (ls_calls st' ≤ ls_calls st + length cs)%nat ∧
         (ls_consistent st' = true →
          ls_calls st' = (ls_calls st + length cs)%nat ∧
          reach n (ls_dsu st') (reverse (map to_constraint cs) ++ acc)).
Proof.
  induction cs as [|[[i j] c] cs IH]; intros st acc rest Hr Hc Hin Hwf Hn.
  - exists st. cbn [length solve_loop]. split_and!; [done | done | lia |].
    intros _. split; [lia | done].
  - destruct (Hwf (i, j, c) ltac:(by left)) as (Hi & Hj & Hcc). cbn [fst snd] in Hi, Hj, Hcc.
    assert (is_int i ∧ is_int j) as [Hii Hij].
    { unfold is_int, int_min, int_max in *. lia. }
    assert (∀ k, k ∈ cs → 0 <= k.1.1 <= n ∧ 0 <= k.1.2 <= n ∧ is_int k.2) as Hwf'.
    { intros k Hk. apply Hwf. by right. }
    assert (Forall is_int (encode_constraints cs)) as Hints.
    { clear -Hwf' Hn. induction cs as [|k cs IHcs]; [constructor|].
      destruct (Hwf' k ltac:(by left)) as (H1 & H2 & H3).
      cbn [encode_constraints flat_map app].
      repeat apply Forall_cons_2;
        [| | done | apply IHcs; intros k' Hk'; apply Hwf'; by right];
        unfold is_int, int_min, int_max in *; lia. }
    pose proof (length_encode_constraints cs) as Hlen3.
    destruct (reach_Inv n _ acc Hr) as (g & HI & Hlen).
    destruct (unite_Inv g acc (ls_dsu st) (Z.to_nat i) (Z.to_nat j) c HI
                ltac:(lia) ltac:(lia) Hcc)
      as (s1 & s2 & _ & _ & _ & _ & _ & _ & _ & Hu).
    assert (∃ b d, unite (ls_dsu st) (Z.to_nat i) (Z.to_nat j) c = Ok (b, d))
      as (b & d & Hbd) by (rewrite Hu; case_decide; eauto).
    cbn [encode_constraints flat_map app fst snd] in Hin.
    fold (encode_constraints cs) in Hin.
    cbn [length solve_loop map]. rewrite reverse_cons.
    rewrite (solve_step_unite st i j c (encode_constraints cs ++ rest) b d)
      by (done || lia).
    rewrite bind_Ok.
    pose proof (reach_unite n _ acc (Z.to_nat i) (Z.to_nat j) c b d Hr
                  ltac:(lia) ltac:(lia) Hcc Hbd) as Hr'.
    destruct b.
    + destruct (IH {| ls_dsu := d; ls_consistent := true;
                      ls_input := encode_constraints cs ++ rest;
                      ls_calls := S (ls_calls st) |}
                  ((Z.to_nat i, Z.to_nat j, c) :: acc) rest Hr' eq_refl eq_refl Hwf' Hn)
        as (st' & Hloop & Hrest & Hle & Hyes).
      cbn [ls_calls] in Hle, Hyes.
      exists st'. split_and!; [done | done | lia |].
      intros Hcons. destruct (Hyes Hcons) as [Hcalls Hreach].
      split; [lia|]. by rewrite <- app_assoc.
    + rewrite (solve_loop_skip (length cs) _ (encode_constraints cs) rest) by done.
      eexists. split_and!; [reflexivity | done | cbn [ls_calls]; lia | discriminate].
Qed.

(** X18. A run of [solve] on a well-formed test case calls [unite] at
    most [m] times; when the verdict is [YES] it has called it for every
    constraint and the offsets left in the structure solve the test case:
    taking for [x_i] the offset of [i] to its root satisfies every
    constraint read. *)
Theorem yes_leaves_a_solution tc rest :
  well_formed tc →
  ∃ st, solve_run (encode_case tc ++ rest) = Ok st ∧ ls_input st = rest ∧
        (ls_calls st ≤ length (tc_constraints tc))%nat ∧
        (ls_consistent st = true →
         ls_calls st = length (tc_constraints tc) ∧
         ∀ k, k ∈ tc_constraints tc →
           offset_of (ls_dsu st) (Z.to_nat k.1.1)
           - offset_of (ls_dsu st) (Z.to_nat k.1.2) = k.2).
Proof.
  intros (Hn0 & Hn1 & Hm & Hwf).
  assert (is_int (tc_n tc)) as Hn by (unfold is_int, int_min, int_max in *; lia).
  assert (is_int (Z.of_nat (length (tc_constraints tc)))) as Hmi
    by (unfold is_int, int_min, int_max in *; lia).
  destruct (DSU_new (tc_n tc)) as [dsu|e] eqn:Hnew; cycle 1.
  { unfold DSU_new, int_add in Hnew. rewrite int_check_Ok in Hnew
      by (unfold is_int, int_min, int_max in *; lia).
    rewrite bind_Ok in Hnew. destruct (tc_n tc + 1 <? 0) eqn:E; [|discriminate].
    apply Z.ltb_lt in E. lia. }
  assert (∀ k, k ∈ tc_constraints tc →
            0 <= k.1.1 <= tc_n tc ∧ 0 <= k.1.2 <= tc_n tc ∧ is_int k.2) as Hwf0.
  { intros k Hk. destruct (Hwf k Hk) as (? & ? & ?). split_and!; first [lia | done]. }
  destruct (solve_loop_reach (tc_n tc) (tc_constraints tc)
              {| ls_dsu := dsu; ls_consistent := true;
                 ls_input := encode_constraints (tc_constraints tc) ++ rest;
                 ls_calls := 0 |} [] rest (reach_new _ _ Hnew) eq_refl eq_refl Hwf0 Hn)
    as (st' & Hloop & Hrest & Hle & Hyes).
  cbn [ls_calls] in Hle, Hyes.
  exists st'. split_and!; [| done | lia |].
  - unfold solve_run, encode_case. cbn [app].
    rewrite read_int_Ok, bind_Ok by done. cbn beta iota.
    rewrite read_int_Ok, bind_Ok by done. cbn beta iota.
    by rewrite Hnew, bind_Ok, Nat2Z.id.
  - intros Hcons. destruct (Hyes Hcons) as [Hcalls Hreach]. split; [lia|].
    rewrite app_nil_r in Hreach.
    destruct (reach_Inv _ _ _ Hreach) as (g & HI & _).
    intros k Hk.
    apply (Inv_offset_sat g _ _ HI (to_constraint k)).
    apply elem_of_reverse, list_elem_of_fmap. eauto.
Qed.

Lemma yes_leaves_a_solution_witness :
  ∃ st, solve_run (encode_case case_A ++ [11]) = Ok st ∧ ls_input st = [11] ∧
        (ls_calls st ≤ length (tc_constraints case_A))%nat ∧
        (ls_consistent st = true →
         ls_calls st = length (tc_constraints case_A) ∧
         ∀ k, k ∈ tc_constraints case_A →
           offset_of (ls_dsu st) (Z.to_nat k.1.1)
           - offset_of (ls_dsu st) (Z.to_nat k.1.2) = k.2).
Proof. apply (yes_leaves_a_solution case_A [11]). apply case_A_well_formed. Defined.

(** The loop of [solve] up to the first contradiction: if the loop ends
    with [consistent] false, [unite] was called for the constraints up to
    and including the first one that cannot hold together with those
    before it, and for no other. *)
Lemma solve_loop_first_contradiction n : ∀ cs st g acc rest,
  Inv g acc (ls_dsu st) → Z.of_nat (length (parent (ls_dsu st))) = n + 1 →
  ls_consistent st = true →
  ls_input st = encode_constraints cs ++ rest →
  (∀ k, k ∈ cs → 0 <= k.1.1 <= n ∧ 0 <= k.1.2 <= n ∧ is_int k.2) →
  is_int n →
  ∃ st', solve_loop (length cs) st = Ok st' ∧
    (ls_consistent st' = false →
     ∃ pre k post, cs = pre ++ k :: post ∧
       ls_calls st' = (ls_calls st + S (length pre))%nat ∧
       satisfiable (map to_constraint pre ++ acc) ∧
       ¬ satisfiable (to_constraint k :: map to_constraint pre ++ acc)).
Proof.
  induction cs as [|[[i j] c] cs IH]; intros st g acc rest HI Hlen Hc Hin Hwf Hn.
  - exists st. split; [done|]. congruence.
  - destruct (Hwf (i, j, c) ltac:(by left)) as (Hi & Hj & Hcc). cbn [fst snd] in Hi, Hj, Hcc.
    assert (is_int i ∧ is_int j) as [Hii Hij].
    { unfold is_int, int_min, int_max in *. lia. }
    assert (∀ k, k ∈ cs → 0 <= k.1.1 <= n ∧ 0 <= k.1.2 <= n ∧ is_int k.2) as Hwf'.
    { intros k Hk. apply Hwf. by right. }
    assert (Forall is_int (encode_constraints cs)) as Hints.
    { clear -Hwf' Hn. induction cs as [|k cs IHcs]; [constructor|].
      destruct (Hwf' k ltac:(by left)) as (H1 & H2 & H3).
      cbn [encode_constraints flat_map app].
      repeat apply Forall_cons_2;
        [| | done | apply IHcs; intros k' Hk'; apply Hwf'; by right];
        unfold is_int, int_min, int_max in *; lia. }
    pose proof (length_encode_constraints cs) as Hlen3.
    destruct (unite_Inv g acc (ls_dsu st) (Z.to_nat i) (Z.to_nat j) c HI
                ltac:(lia) ltac:(lia) Hcc)
      as (s1 & s2 & _ & _ & HI2 & Hlen2 & _ & _ & _ & Hu).
    cbn [encode_constraints flat_map app fst snd] in Hin.
    fold (encode_constraints cs) in Hin.
    cbn [length solve_loop].
    assert (∀ b d, unite (ls_dsu st) (Z.to_nat i) (Z.to_nat j) c = Ok (b, d) →
              solve_step st =
                Ok {| ls_dsu := d; ls_consistent := b;
                      ls_input := encode_constraints cs ++ rest;
                      ls_calls := S (ls_calls st) |}) as Hstep.
    { intros b d Hbd. apply (solve_step_unite st i j c); try done; lia. }
    assert (∀ d (g' : ghost),
              Inv g' ((Z.to_nat i, Z.to_nat j, c) :: acc) d →
              length (parent d) = length (parent s2) →
              ∃ st', solve_loop (length cs)
                       {| ls_dsu := d; ls_consistent := true;
                          ls_input := encode_constraints cs ++ rest;
                          ls_calls := S (ls_calls st) |} = Ok st' ∧
                (ls_consistent st' = false →
                 ∃ pre k post, (i, j, c) :: cs = pre ++ k :: post ∧
                   ls_calls st' = (ls_calls st + S (length pre))%nat ∧
                   satisfiable (map to_constraint pre ++ acc) ∧
                   ¬ satisfiable (to_constraint k :: map to_constraint pre ++ acc)))
      as Hnext.
    { intros d g' HI3 Hlen3'.
      destruct (IH {| ls_dsu := d; ls_consistent := true;
                      ls_input := encode_constraints cs ++ rest;
                      ls_calls := S (ls_calls st) |} g'
                  ((Z.to_nat i, Z.to_nat j, c) :: acc) rest HI3)
        as (st' & Hloop & Hno); [cbn [ls_dsu]; lia | done.. |].
      exists st'. split; [done|]. intros Hf.
      destruct (Hno Hf) as (pre & k & post & -> & Hcalls & Hsat & Hunsat).
      exists ((i, j, c) :: pre), k, post. cbn [ls_calls length] in *.
      split_and!; [done | lia | |].
      - destruct Hsat as (y & Hy). exists y. cbn [map app].
        apply sat_app in Hy as [Hy1 Hy2]. apply sat_cons in Hy2 as [Hy2 Hy3].
        apply sat_cons. split; [done|]. apply sat_app. done.
      - intros (y & Hy). apply Hunsat. exists y. cbn [map app] in Hy.
        apply sat_cons in Hy as [Hy0 Hy]. apply sat_cons in Hy as [Hy1 Hy].
        apply sat_app in Hy as [Hy2 Hy3].
        apply sat_cons. split; [done|]. apply sat_app. split; [done|].
        apply sat_cons. done. }
    case_decide as Hr.
    + rewrite (Hstep _ _ Hu), bind_Ok.
      eapply Hnext; [|apply length_link_state].
      apply (Inv_link HI2); [lia | lia | done | done].
    + case_bool_decide as Hd.
      * rewrite (Hstep _ _ Hu), bind_Ok.
        apply (Hnext s2 g); [|done].
        apply Inv_accept; [done | lia | lia | done | done].
      * rewrite (Hstep _ _ Hu), bind_Ok.
        rewrite (solve_loop_skip (length cs) _ (encode_constraints cs) rest) by done.
        eexists. split; [reflexivity|]. intros _.
        exists [], (i, j, c), cs. cbn [ls_calls length map app].
        split_and!; [done | lia | |].
        -- exists (pot g). by apply (Inv_sat g acc s2).
        -- intros (y & Hy). apply sat_cons in Hy as [Hk Hy].
           unfold holds, to_constraint in Hk. cbn [fst snd] in Hk.
           pose proof (Inv_sat_diff g acc s2 y (Z.to_nat i) (Z.to_nat j) HI2
                         ltac:(lia) ltac:(lia) Hr Hy). lia.
Qed.

(** X19. When the verdict of a well-formed test case is [NO], [solve]
    has called [unite] for the constraints up to and including the first
    one that contradicts those before it, and for none after it: the
    constraints before it have a solution, with it they have none, and
    the number of calls is its position. *)
Theorem no_stops_at_first_contradiction tc rest :
  well_formed tc →
  ∃ st, solve_run (encode_case tc ++ rest) = Ok st ∧
    (ls_consistent st = false →
     ∃ pre k post, tc_constraints tc = pre ++ k :: post ∧
       ls_calls st = S (length pre) ∧
       consistent pre ∧ ¬ consistent (k :: pre)).
Proof.
  intros (Hn0 & Hn1 & Hm & Hwf).
  assert (is_int (tc_n tc)) as Hn by (unfold is_int, int_min, int_max in *; lia).
  assert (is_int (Z.of_nat (length (tc_constraints tc)))) as Hmi
    by (unfold is_int, int_min, int_max in *; lia).
  destruct (DSU_new (tc_n tc)) as [dsu|e] eqn:Hnew; cycle 1.
  { unfold DSU_new, int_add in Hnew. rewrite int_check_Ok in Hnew
      by (unfold is_int, int_min, int_max in *; lia).
    rewrite bind_Ok in Hnew. destruct (tc_n tc + 1 <? 0) eqn:E; [|discriminate].
    apply Z.ltb_lt in E. lia. }
  pose proof (DSU_new_Inv _ _ Hnew) as HI.
  assert (Z.of_nat (length (parent dsu)) = tc_n tc + 1) as Hlen.
  { apply DSU_new_Ok in Hnew as [_ ->]. cbn [parent]. rewrite length_seq. lia. }
  assert (∀ k, k ∈ tc_constraints tc →
            0 <= k.1.1 <= tc_n tc ∧ 0 <= k.1.2 <= tc_n tc ∧ is_int k.2) as Hwf0.
  { intros k Hk. destruct (Hwf k Hk) as (? & ? & ?). split_and!; first [lia | done]. }
  destruct (solve_loop_first_contradiction (tc_n tc) (tc_constraints tc)
              {| ls_dsu := dsu; ls_consistent := true;
                 ls_input := encode_constraints (tc_constraints tc) ++ rest;
                 ls_calls := 0 |} ghost0 [] rest HI Hlen eq_refl eq_refl Hwf0 Hn)
    as (st' & Hloop & Hno).
  exists st'. split.
  - unfold solve_run, encode_case. cbn [app].
    rewrite read_int_Ok, bind_Ok by done. cbn beta iota.
    rewrite read_int_Ok, bind_Ok by done. cbn beta iota.
    by rewrite Hnew, bind_Ok, Nat2Z.id.
  - intros Hf. destruct (Hno Hf) as (pre & k & post & Hcs & Hcalls & Hsat & Hunsat).
    exists pre, k, post. cbn [ls_calls] in Hcalls. rewrite app_nil_r in Hsat, Hunsat.
    assert (∀ k', k' ∈ k :: pre → 0 <= k'.1.1 ∧ 0 <= k'.1.2) as Hpos.
    { intros k' Hk'. destruct (Hwf0 k') as (? & ? & _); [|lia].
      rewrite Hcs. apply elem_of_app. apply elem_of_cons in Hk' as [->|?];
        [right; by left | by left]. }
    split_and!; [done | lia | |].
    + apply satisfiable_consistent; [|done]. intros k' Hk'. apply Hpos. by right.
    + intros H. apply Hunsat. by apply (satisfiable_consistent (k :: pre)).
Qed.

Lemma no_stops_at_first_contradiction_witness :
  ∃ st, solve_run (encode_case case_B ++ [11]) = Ok st ∧
    (ls_consistent st = false →
     ∃ pre k post, tc_constraints case_B = pre ++ k :: post ∧
       ls_calls st = S (length pre) ∧
       consistent pre ∧ ¬ consistent (k :: pre)).
Proof.
  apply (no_stops_at_first_contradiction case_B [11]). apply case_B_well_formed.
Defined.
